(** * GitLab activity tracker: reconciliation and branch attribution

    A shallow embedding of [day_activity_2.js] (the later of the two script
    variants): the collection of merge requests and commits over the user's
    projects, the attribution of a branch to every commit, the reconciliation
    of a fresh batch against the persisted JSON record, and the ordering of
    the day sections of the text report.

    Conventions.
    - A JavaScript string is the list of its UTF-16 code units.
    - A property that holds a string, [null] or nothing at all is a [jsval].
    - The remote API is a record of answers, one per request URL; an answer
      of [None] is a request that throws.  The pagination loop of
      [fetchAllPages] is not modelled: an answer is the concatenation of the
      pages.
    - The file system is one file per operation, given by what reading and
      parsing it yields.  The JSON record comes twice: as a file of the
      record format, on which the reconciliation is stated, and, in [Raw],
      as any file at all, with the paths on which the reader or the run
      throws; the two agree on the files of the format.
    - [new Date(s)], [dayjs(s).format(..)] and the clock belong to the host;
      the development is parametric in them. *)

From Stdlib Require Import ZArith NArith List Ascii String Sorting.Sorted.
From stdpp Require Import base decidable countable gmap list sorting.

Local Open Scope Z_scope.

(** ** Strings and values *)

Abbreviation jsstring := (list N).

(** An ASCII literal as a sequence of code units. *)
Definition lit (s : string) : jsstring :=
  (λ a, N_of_ascii a) <$> list_ascii_of_string s.

Inductive jsval :=
| JUndefined
| JNull
| JStr (s : jsstring).

#[global] Instance jsval_eq_dec : EqDecision jsval.
Proof. solve_decision. Defined.

#[global] Instance jsval_countable : Countable jsval.
Proof.
  refine (inj_countable'
    (λ v, match v with
          | JUndefined => inl false
          | JNull => inl true
          | JStr s => inr s
          end)
    (λ e, match e with
          | inl false => JUndefined
          | inl true => JNull
          | inr s => JStr s
          end) _).
  by intros [].
Defined.

(** [ToString], as applied by a template literal. *)
Definition ToString (v : jsval) : jsstring :=
  match v with
  | JUndefined => lit "undefined"
  | JNull => lit "null"
  | JStr s => s
  end.

(** [ToBoolean]. *)
Definition truthy (v : jsval) : bool :=
  match v with
  | JStr (_ :: _) => true
  | _ => false
  end.

(** [a || b] on values. *)
Definition js_or (a b : jsval) : jsval := if truthy a then a else b.

(** ** Activities *)

(** One record for both shapes of activity object; a property the object
    does not have is [JUndefined] (or [None] for the two that are not
    strings). *)
Record Activity := {
  type : jsval;
  project : jsval;
  title : jsval;
  date : jsval;
  sha : jsval;
  iid : option Z;
  source : jsval;
  target : jsval;
  branch : jsval;
  target_branch : jsval;
  from_merge_request : option bool;
  mr_source : jsval;
  mr_target : jsval
}.

#[global] Instance Activity_eq_dec : EqDecision Activity.
Proof. solve_decision. Defined.

Definition Commit_type : jsval := JStr (lit "Commit").
Definition MergeRequest_type : jsval := JStr (lit "Merge Request").

(** The separator the script writes between source and target: a space,
    the three code units U+00E2 U+2020 U+2019 the file holds, a space. *)
Definition arrow : jsstring := [32; 226; 8224; 8217; 32]%N.

(** [`${item.source} .. ${item.target}`] *)
Definition mrKey (item : Activity) : jsstring :=
  ToString (source item) ++ arrow ++ ToString (target item).

(** ** Array.prototype.sort

    ECMAScript requires the sort to be stable and reads a comparator
    result of [NaN] as [+0].  For a consistent comparator the result is
    the one stable ordering, which the insertion sort below computes; for
    an inconsistent one (a comparator that answers [NaN] on some pairs and
    a number on others) the standard leaves the order to the engine: the
    insertion order below is then one possible answer, not the engine's,
    and the properties stated of an order assume dated entries. *)
Section ArraySort.
Context {A : Type} (comparefn : A → A → option Z).

Definition SortCompare (x y : A) : Z := default 0 (comparefn x y).

Fixpoint sort_insert (x : A) (l : list A) : list A :=
  match l with
  | [] => [x]
  | y :: l' =>
      if bool_decide (0 < SortCompare x y) then y :: sort_insert x l'
      else x :: y :: l'
  end.

Definition Array_sort (l : list A) : list A := foldr sort_insert [] l.

(** The comparator is [(a, b) => key(b) - key(a)] on the elements of
    [l]: every key is a number there. *)
Definition orders_by_key_desc (key : A → Z) (l : list A) : Prop :=
  ∀ x y, x ∈ l → y ∈ l → comparefn x y = Some (key y - key x).
End ArraySort.

Definition key_desc {A : Type} (key : A → Z) (a b : A) : Prop := key b ≤ key a.

(** ** The persisted JSON record *)

Inductive error := IOError | SyntaxError | TypeError.

Record Output := {
  generated_at : jsstring;
  total_activities : nat;
  summary_commits : nat;
  summary_merge_requests : nat;
  activities : list Activity
}.

(** What [JSON.parse] makes of the text of a file of the record format:
    the member [activities], when there is a truthy one, is an array of
    objects.  The script reads that member only.  A file whose member is
    anything else, or an array that holds [null], is outside this type; the
    module [Raw] below takes the file as it may be found. *)
Inductive jsonData :=
| ParseFails                     (* JSON.parse throws *)
| ParsedNull                     (* the text is [null] *)
| ParsedWithoutActivities        (* no member [activities], or a falsy one *)
| Parsed (o : Output).

Inductive file :=
| Missing                        (* fs.existsSync is false *)
| Unreadable                     (* fs.readFileSync throws *)
| Text (j : jsonData).

(** Lines written to the console by the functions modelled. *)
Inductive line :=
| Warn_could_not_parse_json (e : error)
| Log_no_new_activity_json
| Log_updated_json (n : nat)
| Warn_mr_commits (iid : Z)
| Warn_branches.

Record Existing := {
  shas : gset jsval;
  mrs : gset jsstring;
  data : list Activity
}.

Definition no_existing : Existing := {| shas := ∅; mrs := ∅; data := [] |}.

(** The body of the [forEach] in [extractExistingFromJson]. *)
Definition record_identity (existing : Existing) (item : Activity) : Existing :=
  if decide (type item = Commit_type) then
    {| shas := {[ sha item ]} ∪ shas existing;
       mrs := mrs existing;
       data := data existing |}
  else if decide (type item = MergeRequest_type) then
    {| shas := shas existing;
       mrs := {[ mrKey item ]} ∪ mrs existing;
       data := data existing |}
  else existing.

(** The [try] block on a file of the record format.  [item.type] does not
    throw on an object, so a throw can only come from [readFileSync],
    [JSON.parse] or [jsonData.activities] on [null], all of them before
    [existing] is touched.  (On other files the loop can throw after
    [existing.data] is assigned: see [Raw.extractExistingFromJson].) *)
Definition read_existing (j : jsonData) : error + Existing :=
  match j with
  | ParseFails => inl SyntaxError
  | ParsedNull => inl TypeError
  | ParsedWithoutActivities => inr no_existing
  | Parsed o =>
      inr (foldl record_identity
             {| shas := ∅; mrs := ∅; data := activities o |} (activities o))
  end.

Definition extractExistingFromJson (f : file) : Existing * list line :=
  match f with
  | Missing => (no_existing, [])
  | Unreadable => (no_existing, [Warn_could_not_parse_json IOError])
  | Text j =>
      match read_existing j with
      | inl e => (no_existing, [Warn_could_not_parse_json e])
      | inr existing => (existing, [])
      end
  end.

(** ** saveAsJson *)

(** The predicate of [data.filter] in [saveAsJson]. *)
Definition is_new (existing : Existing) (item : Activity) : Prop :=
  if decide (type item = Commit_type) then sha item ∉ shas existing
  else if decide (type item = MergeRequest_type) then mrKey item ∉ mrs existing
  else True.

#[global] Instance is_new_dec existing item : Decision (is_new existing item).
Proof. unfold is_new. repeat case_decide; apply _. Defined.

Definition is_type (t : jsval) (item : Activity) : Prop := type item = t.

#[global] Instance is_type_dec t item : Decision (is_type t item).
Proof. unfold is_type. apply _. Defined.

Section Reconcile.
(** [new Date(v).getTime()]; [None] is [NaN]. *)
Variable Date_parse : jsval → option Z.

(** [(a, b) => new Date(b.date) - new Date(a.date)] *)
Definition by_date_desc (a b : Activity) : option Z :=
  match Date_parse (date b), Date_parse (date a) with
  | Some tb, Some ta => Some (tb - ta)
  | _, _ => None
  end.

Definition filteredData (data0 : list Activity) (f : file) : list Activity :=
  filter (is_new (extractExistingFromJson f).1) data0.

(** [saveAsJson(data, filename)] with the file and the clock made
    explicit: the returned array, the file afterwards, the console. *)
Definition saveAsJson (now : jsstring) (data0 : list Activity) (f : file)
  : list Activity * file * list line :=
  let '(existing, warnings) := extractExistingFromJson f in
  let filtered := filter (is_new existing) data0 in
  if (length filtered =? 0)%nat && bool_decide (0 < length (data existing))%nat then
    (data existing, f, warnings ++ [Log_no_new_activity_json])
  else
    let allData := Array_sort by_date_desc (data existing ++ filtered) in
    let output :=
      {| generated_at := now;
         total_activities := length allData;
         summary_commits := length (filter (is_type Commit_type) allData);
         summary_merge_requests :=
           length (filter (is_type MergeRequest_type) allData);
         activities := allData |} in
    (allData, Text (Parsed output),
     warnings ++ [Log_updated_json (length filtered)]).
End Reconcile.

(** ** The file as it may be found

    [extractExistingFromJson] and [saveAsJson] once more, on any file at
    all: the member [activities] may hold a value that is not an array, and
    an array may hold [null].  In [extractExistingFromJson] the assignment
    [existing.data = jsonData.activities] comes before the [forEach], inside
    the [try]: a throw of the loop leaves [existing] with the data assigned
    and the identities recorded so far.  On the files of the record format
    this model and the one above agree. *)
Module Raw.
(** An entry of an array: [Some] for an object, [None] for [null].  A
    number, a boolean, a string or an array reads as an object without
    properties. *)
Abbreviation entry := (option Activity).

(** A truthy JSON value, as far as the script tells one from another. *)
Inductive value :=
| Arr (entries : list entry)
| Scalar                          (* a number, or [true] *)
| Chars (n : nat)                 (* a string of [S n] code points *)
| Obj (positive_length : bool).   (* an object; is its member [length] > 0? *)

(** [jsonData.activities] *)
Inductive member :=
| Falsy                           (* no such member, or a falsy one *)
| Truthy (v : value).

(** The members [saveAsJson] writes next to [activities]. *)
Record Stamp := {
  generated : jsstring;
  total : nat;
  commits : nat;
  merge_requests : nat
}.

Inductive jsonData :=
| ParseFails                      (* JSON.parse throws *)
| Null                            (* the text is [null] *)
| Object (activities : member) (stamp : option Stamp).
                                  (* any other value, by its member
                                     [activities]; the stamp is what a run
                                     of the script wrote next to it *)

Inductive file :=
| Missing                         (* fs.existsSync is false *)
| Unreadable                      (* fs.readFileSync throws *)
| Text (j : jsonData).

Record Existing := {
  shas : gset jsval;
  mrs : gset jsstring;
  data : value
}.

Definition no_existing : Existing := {| shas := ∅; mrs := ∅; data := Arr [] |}.

(** The body of the [forEach], on an object. *)
Definition record_identity (existing : Existing) (item : Activity) : Existing :=
  if decide (type item = Commit_type) then
    {| shas := {[ sha item ]} ∪ shas existing;
       mrs := mrs existing;
       data := data existing |}
  else if decide (type item = MergeRequest_type) then
    {| shas := shas existing;
       mrs := {[ mrKey item ]} ∪ mrs existing;
       data := data existing |}
  else existing.

(** [jsonData.activities.forEach(..)] on an array: [item.type] throws on
    [null], and the loop ends there.  The flag tells whether it threw. *)
Fixpoint forEach (existing : Existing) (entries : list entry) : Existing * bool :=
  match entries with
  | [] => (existing, false)
  | Some item :: rest => forEach (record_identity existing item) rest
  | None :: _ => (existing, true)
  end.

(** The objects that stand before the first [null]. *)
Fixpoint before_null (entries : list entry) : list Activity :=
  match entries with
  | Some item :: rest => item :: before_null rest
  | _ => []
  end.

Definition extractExistingFromJson (f : file) : Existing * list line :=
  match f with
  | Missing => (no_existing, [])
  | Unreadable => (no_existing, [Warn_could_not_parse_json IOError])
  | Text ParseFails => (no_existing, [Warn_could_not_parse_json SyntaxError])
  | Text Null => (no_existing, [Warn_could_not_parse_json TypeError])
  | Text (Object Falsy _) => (no_existing, [])
  | Text (Object (Truthy v) _) =>
      let existing := {| shas := ∅; mrs := ∅; data := v |} in
      match v with
      | Arr entries =>
          let '(existing, threw) := forEach existing entries in
          (existing,
           if threw then [Warn_could_not_parse_json TypeError] else [])
      | _ =>
          (* [forEach] is not a function *)
          (existing, [Warn_could_not_parse_json TypeError])
      end
  end.

(** The predicate of [data.filter] in [saveAsJson]. *)
Definition is_new (existing : Existing) (item : Activity) : Prop :=
  if decide (type item = Commit_type) then sha item ∉ shas existing
  else if decide (type item = MergeRequest_type) then mrKey item ∉ mrs existing
  else True.

#[global] Instance is_new_dec existing item : Decision (is_new existing item).
Proof. unfold is_new. repeat case_decide; apply _. Defined.

(** [existing.data.length > 0] *)
Definition positive_length (v : value) : bool :=
  match v with
  | Arr entries => bool_decide (0 < length entries)%nat
  | Scalar => false
  | Chars _ => true
  | Obj b => b
  end.

(** An object without properties. *)
Definition blank : Activity :=
  {| type := JUndefined;
     project := JUndefined;
     title := JUndefined;
     date := JUndefined;
     sha := JUndefined;
     iid := None;
     source := JUndefined;
     target := JUndefined;
     branch := JUndefined;
     target_branch := JUndefined;
     from_merge_request := None;
     mr_source := JUndefined;
     mr_target := JUndefined |}.

(** [[...existing.data]]: the entries of an array, the code points of a
    string; nothing else JSON gives can be iterated. *)
Definition spread (v : value) : option (list entry) :=
  match v with
  | Arr entries => Some entries
  | Chars n => Some (replicate (S n) (Some blank))
  | Scalar | Obj _ => None
  end.

(** The entries, when none of them is [null]. *)
Fixpoint objects (entries : list entry) : option (list Activity) :=
  match entries with
  | [] => Some []
  | Some item :: rest =>
      match objects rest with
      | Some items => Some (item :: items)
      | None => None
      end
  | None :: _ => None
  end.

(** The outcome of a call: a returned value with the file afterwards and
    the console, or an exception that nothing catches, with the console up
    to it; the file is then as it was. *)
Inductive outcome :=
| Returns (allData : value) (f : file) (console : list line)
| Throws (e : error) (console : list line).

Section SaveAsJson.
Variable Date_parse : jsval → option Z.

(** [.sort((a, b) => new Date(b.date) - new Date(a.date))]: the comparator
    reads [date] off both arguments, which throws on [null]; sorting two
    entries or more, the engine hands every entry to the comparator. *)
Definition sort (entries : list entry) : error + list entry :=
  match objects entries with
  | Some items => inr (Some <$> Array_sort (by_date_desc Date_parse) items)
  | None => if (length entries <=? 1)%nat then inr entries else inl TypeError
  end.

Definition saveAsJson (now : jsstring) (data0 : list Activity) (f : file)
  : outcome :=
  let '(existing, warnings) := extractExistingFromJson f in
  let filtered := filter (is_new existing) data0 in
  if (length filtered =? 0)%nat && positive_length (data existing) then
    Returns (data existing) f (warnings ++ [Log_no_new_activity_json])
  else
    match spread (data existing) with
    | None => Throws TypeError warnings
    | Some entries =>
        match sort (entries ++ (Some <$> filtered)) with
        | inl e => Throws e warnings
        | inr allData =>
            (* [allData.filter(item => item.type === ..)] *)
            match objects allData with
            | None => Throws TypeError warnings
            | Some items =>
                let output :=
                  Object (Truthy (Arr allData))
                    (Some {| generated := now;
                             total := length allData;
                             commits :=
                               length (filter (is_type Commit_type) items);
                             merge_requests :=
                               length (filter (is_type MergeRequest_type)
                                         items) |}) in
                Returns (Arr allData) (Text output)
                  (warnings ++ [Log_updated_json (length filtered)])
            end
        end
    end.
End SaveAsJson.
End Raw.

(** A file of the record format, as it is found. *)
Definition as_found (f : file) : Raw.file :=
  match f with
  | Missing => Raw.Missing
  | Unreadable => Raw.Unreadable
  | Text ParseFails => Raw.Text Raw.ParseFails
  | Text ParsedNull => Raw.Text Raw.Null
  | Text ParsedWithoutActivities => Raw.Text (Raw.Object Raw.Falsy None)
  | Text (Parsed o) =>
      Raw.Text
        (Raw.Object (Raw.Truthy (Raw.Arr (Some <$> activities o)))
           (Some {| Raw.generated := generated_at o;
                    Raw.total := total_activities o;
                    Raw.commits := summary_commits o;
                    Raw.merge_requests := summary_merge_requests o |}))
  end.

Definition as_read (existing : Existing) : Raw.Existing :=
  {| Raw.shas := shas existing;
     Raw.mrs := mrs existing;
     Raw.data := Raw.Arr (Some <$> data existing) |}.

(** ** Regular expressions

    The fragment of ECMAScript patterns the script uses, with the
    backtracking semantics of the standard: alternatives are tried in
    order, a greedy star tries one more iteration before stopping, a lazy
    one stops before trying one more, and an iteration that consumes
    nothing is rejected.  No group of the script's pattern stands under a
    star, so captures are never reset. *)
Module Regex.
Inductive regex :=
| Eps
| Chr (c : N)
| Dot
| Seq (r1 r2 : regex)
| Star (greedy : bool) (r : regex)
| Group (i : nat) (r : regex).

(** [.] without the [s] flag matches any code unit but these. *)
Definition LineTerminator (c : N) : bool :=
  ((c =? 10) || (c =? 13) || (c =? 8232) || (c =? 8233))%N.

Definition captures := gmap nat jsstring.
Definition continuation := jsstring → captures → option captures.

Definition or_else {A} (x y : option A) : option A :=
  match x with Some a => Some a | None => y end.

Fixpoint run (r : regex) (s : jsstring) (caps : captures) (k : continuation)
  : option captures :=
  match r with
  | Eps => k s caps
  | Chr c =>
      match s with
      | c' :: s' => if (c =? c')%N then k s' caps else None
      | [] => None
      end
  | Dot =>
      match s with
      | c' :: s' => if LineTerminator c' then None else k s' caps
      | [] => None
      end
  | Seq r1 r2 => run r1 s caps (λ s' caps', run r2 s' caps' k)
  | Star greedy r1 =>
      (fix iterate (n : nat) (s : jsstring) (caps : captures) :=
         match n with
         | O => k s caps
         | S n' =>
             let once_more :=
               run r1 s caps (λ s' caps',
                 if bool_decide (length s' < length s)%nat
                 then iterate n' s' caps' else None) in
             if greedy then or_else once_more (k s caps)
             else or_else (k s caps) once_more
         end) (length s) s caps
  | Group i r1 =>
      run r1 s caps (λ s' caps',
        k s' (<[i := take (length s - length s') s]> caps'))
  end.

(** A literal run of ASCII characters. *)
Definition chars (s : string) : regex :=
  foldr (λ c r, Seq (Chr c) r) Eps (lit s).

Definition plus (greedy : bool) (r : regex) : regex := Seq r (Star greedy r).

(** [String.prototype.match] with a pattern without the [g] flag: the
    captures of the leftmost match, [None] for [null]. *)
Fixpoint match_ (r : regex) (s : jsstring) : option captures :=
  match run r s ∅ (λ _ caps, Some caps) with
  | Some caps => Some caps
  | None =>
      match s with
      | [] => None
      | _ :: s' => match_ r s'
      end
  end.

(** [m[i]] *)
Definition group (m : captures) (i : nat) : jsval :=
  match m !! i with
  | Some s => JStr s
  | None => JUndefined
  end.
End Regex.

(** [/Merge branch '(.+?)'.*into (.+)/] *)
Definition merge_title_pattern : Regex.regex :=
  Regex.Seq (Regex.chars "Merge branch '")
    (Regex.Seq (Regex.Group 1 (Regex.plus false Regex.Dot))
       (Regex.Seq (Regex.chars "'")
          (Regex.Seq (Regex.Star true Regex.Dot)
             (Regex.Seq (Regex.chars "into ")
                (Regex.Group 2 (Regex.plus true Regex.Dot)))))).

(** ** The remote API *)

Module ApiCommit.
Record t := {
  id : jsstring;
  title : jsstring;
  created_at : jsstring;
  author_email : jsstring
}.
End ApiCommit.

Module ApiMR.
Record t := {
  iid : Z;
  merge_commit_sha : jsval;
  source_branch : jsstring;
  target_branch : jsstring;
  title : jsstring;
  created_at : jsstring
}.
End ApiMR.

Module ApiProject.
Record t := { id : Z; name_with_namespace : jsstring }.
End ApiProject.

Module ApiUser.
Record t := { id : Z; email : jsstring }.
End ApiUser.

(** The answers of the server during one run.  Of a branch only the name
    is read. *)
Record Remote := {
  merge_requests_of : Z → Z → option (list ApiMR.t);
  mr_commits_of : Z → Z → option (list ApiCommit.t);
  branches_of : Z → option (list jsstring);
  branch_commits_of : Z → jsstring → option (list ApiCommit.t)
}.

(** The objects [getMergeRequests] returns. *)
Module MR.
Record t := {
  iid : Z;
  sha : jsval;
  source : jsstring;
  target : jsstring;
  title : jsstring;
  date : jsstring
}.
End MR.

Definition getMergeRequests (remote : Remote) (projectId userId : Z)
  : option (list MR.t) :=
  match merge_requests_of remote projectId userId with
  | None => None
  | Some mrs =>
      Some ((λ mr, {| MR.iid := ApiMR.iid mr;
                      MR.sha := ApiMR.merge_commit_sha mr;
                      MR.source := ApiMR.source_branch mr;
                      MR.target := ApiMR.target_branch mr;
                      MR.title := ApiMR.title mr;
                      MR.date := ApiMR.created_at mr |}) <$> mrs)
  end.

(** ** getCommitsWithCorrectBranch *)

(** The mutable locals of the function.  The map built by
    [buildCommitToBranchMapping] is never read and is left out. *)
Record Collect := {
  allCommits : list Activity;
  seenCommits : gset jsstring;
  console : list line
}.

(** The object pushed for a commit of a merge request. *)
Definition mr_commit_activity (mr : MR.t) (commit : ApiCommit.t) : Activity :=
  {| type := Commit_type;
     branch := JStr (MR.source mr);
     target_branch := JStr (MR.target mr);
     title := JStr (ApiCommit.title commit);
     date := JStr (ApiCommit.created_at commit);
     sha := JStr (ApiCommit.id commit);
     from_merge_request := Some true;
     mr_source := JStr (MR.source mr);
     mr_target := JStr (MR.target mr);
     project := JUndefined;
     iid := None;
     source := JUndefined;
     target := JUndefined |}.

(** The object pushed for a commit met on a branch. *)
Definition branch_commit_activity (branch_name : jsstring) (commit : ApiCommit.t)
  : Activity :=
  let mergeMatch := Regex.match_ merge_title_pattern (ApiCommit.title commit) in
  let displayBranch :=
    match mergeMatch with
    | Some m => js_or (Regex.group m 2) (JStr branch_name)
    | None => JStr branch_name
    end in
  let targetBranch :=
    match mergeMatch with
    | Some m => js_or (Regex.group m 2) (JStr branch_name)
    | None => JNull
    end in
  {| type := Commit_type;
     branch := displayBranch;
     target_branch := targetBranch;
     title := JStr (ApiCommit.title commit);
     date := JStr (ApiCommit.created_at commit);
     sha := JStr (ApiCommit.id commit);
     from_merge_request := Some false;
     mr_source := JNull;
     mr_target := JNull;
     project := JUndefined;
     iid := None;
     source := JUndefined;
     target := JUndefined |}.

(** The body of both inner loops: push [mk commit] unless the commit is
    someone else's or its id has been seen. *)
Definition visit (userEmail : jsstring) (mk : ApiCommit.t → Activity)
    (st : Collect) (commit : ApiCommit.t) : Collect :=
  if decide (ApiCommit.author_email commit = userEmail
             ∧ ApiCommit.id commit ∉ seenCommits st) then
    {| allCommits := allCommits st ++ [mk commit];
       seenCommits := {[ ApiCommit.id commit ]} ∪ seenCommits st;
       console := console st |}
  else st.

Definition warn (l : line) (st : Collect) : Collect :=
  {| allCommits := allCommits st;
     seenCommits := seenCommits st;
     console := console st ++ [l] |}.

(** [allCommits = []; seenCommits = new Set()] *)
Definition start : Collect :=
  {| allCommits := []; seenCommits := ∅; console := [] |}.

Section Collect.
Variable remote : Remote.
Variables (projectId : Z) (userEmail : jsstring).

(** One turn of the loop over the merge requests, with its own
    [try]/[catch]. *)
Definition visit_mr (st : Collect) (mr : MR.t) : Collect :=
  match mr_commits_of remote projectId (MR.iid mr) with
  | Some commits => foldl (visit userEmail (mr_commit_activity mr)) st commits
  | None => warn (Warn_mr_commits (MR.iid mr)) st
  end.

(** The loop over the branches; [true] when a request threw, which
    leaves the loop for the [catch]. *)
Fixpoint walk_branches (branches : list jsstring) (st : Collect)
  : Collect * bool :=
  match branches with
  | [] => (st, false)
  | branch_name :: rest =>
      match branch_commits_of remote projectId branch_name with
      | Some commits =>
          walk_branches rest
            (foldl (visit userEmail (branch_commit_activity branch_name))
               st commits)
      | None => (st, true)
      end
  end.

Definition walk (st : Collect) : Collect :=
  match branches_of remote projectId with
  | None => warn Warn_branches st
  | Some branches =>
      let '(st', threw) := walk_branches branches st in
      if threw then warn Warn_branches st' else st'
  end.

Definition collect_commits (mergeRequests : list MR.t) : Collect :=
  walk (foldl visit_mr start mergeRequests).

Definition getCommitsWithCorrectBranch (mergeRequests : list MR.t)
  : list Activity :=
  allCommits (collect_commits mergeRequests).
End Collect.

(** ** The main loop *)

(** [{...mr, type: "Merge Request", project: ..}] *)
Definition mr_activity (project_name : jsstring) (mr : MR.t) : Activity :=
  {| type := MergeRequest_type;
     project := JStr project_name;
     title := JStr (MR.title mr);
     date := JStr (MR.date mr);
     sha := MR.sha mr;
     iid := Some (MR.iid mr);
     source := JStr (MR.source mr);
     target := JStr (MR.target mr);
     branch := JUndefined;
     target_branch := JUndefined;
     from_merge_request := None;
     mr_source := JUndefined;
     mr_target := JUndefined |}.

(** [c.project = ..] *)
Definition set_project (project_name : jsstring) (c : Activity) : Activity :=
  {| type := type c;
     project := JStr project_name;
     title := title c;
     date := date c;
     sha := sha c;
     iid := iid c;
     source := source c;
     target := target c;
     branch := branch c;
     target_branch := target_branch c;
     from_merge_request := from_merge_request c;
     mr_source := mr_source c;
     mr_target := mr_target c |}.

Section Main.
Variable remote : Remote.
Variable user : ApiUser.t.

(** One turn of the loop over the projects: the activities pushed.  The
    second [catch] is never entered, since every request of
    [getCommitsWithCorrectBranch] has a [catch] of its own. *)
Definition project_activities (p : ApiProject.t) : list Activity :=
  let name := ApiProject.name_with_namespace p in
  let fetched := getMergeRequests remote (ApiProject.id p) (ApiUser.id user) in
  let mergeRequests := default [] fetched in
  (mr_activity name <$> mergeRequests)
  ++ (set_project name <$>
        getCommitsWithCorrectBranch remote (ApiProject.id p)
          (ApiUser.email user) mergeRequests).

(** [allActivities] once the loop is over. *)
Definition collect_all (projects : list ApiProject.t) : list Activity :=
  foldl (λ allActivities p, allActivities ++ project_activities p) [] projects.
End Main.

(** ** The text report: grouping by day *)

Section Report.
(** [dayjs(v).format("dddd, D MMMM YYYY")] and [new Date(v).getTime()]. *)
Variable dayLabel : jsval → jsstring.
Variable Date_parse : jsval → option Z.

(** [groupedByDay[dayKey].push(item)], after creating the array when the
    key is new.  The object is the list of its entries in the order
    [Object.entries] gives them, which is the order of creation: a day
    label is neither an integer index nor a name [Object.prototype]
    has. *)
Fixpoint group_push (dayKey : jsstring) (item : Activity)
    (groupedByDay : list (jsstring * list Activity))
  : list (jsstring * list Activity) :=
  match groupedByDay with
  | [] => [(dayKey, [item])]
  | (k, items) :: rest =>
      if decide (k = dayKey) then (k, items ++ [item]) :: rest
      else (k, items) :: group_push dayKey item rest
  end.

Definition groupByDay (filtered : list Activity)
  : list (jsstring * list Activity) :=
  foldl (λ g item, group_push (dayLabel (date item)) item g) [] filtered.

(** [([a], [b]) => new Date(b) - new Date(a)] *)
Definition by_day_desc (e1 e2 : jsstring * list Activity) : option Z :=
  match Date_parse (JStr e2.1), Date_parse (JStr e1.1) with
  | Some tb, Some ta => Some (tb - ta)
  | _, _ => None
  end.

(** The day sections [saveGroupedToMarkdown] emits, in order, each with
    its activities.  [ids] is what [extractExistingIds] recovered from
    the report already on disk; that scan is not modelled. *)
Definition day_sections (ids : Existing) (data0 : list Activity)
  : list (jsstring * list Activity) :=
  Array_sort by_day_desc (groupByDay (filter (is_new ids) data0)).
End Report.

(** ** The prior record and the reconciled one *)

(** [existing.data] *)
Definition prior (f : file) : list Activity := data (extractExistingFromJson f).1.

Definition commit_shas (l : list Activity) : list jsval :=
  sha <$> filter (is_type Commit_type) l.

Definition mr_pairs (l : list Activity) : list (jsval * jsval) :=
  (λ x, (source x, target x)) <$> filter (is_type MergeRequest_type) l.

(** No two Commit entries of one sha, no two Merge Request entries of one
    source and target. *)
Definition deduplicated (l : list Activity) : Prop :=
  NoDup (commit_shas l) ∧ NoDup (mr_pairs l).

#[global] Instance deduplicated_dec l : Decision (deduplicated l).
Proof. unfold deduplicated. apply _. Defined.

(** The file after [fs.writeFileSync(filename, JSON.stringify(output))]. *)
Definition written (now : jsstring) (allData : list Activity) : file :=
  Text (Parsed
    {| generated_at := now;
       total_activities := length allData;
       summary_commits := length (filter (is_type Commit_type) allData);
       summary_merge_requests :=
         length (filter (is_type MergeRequest_type) allData);
       activities := allData |}).

(** The guard of the early return. *)
Definition short_circuit (data0 : list Activity) (f : file) : Prop :=
  filteredData data0 f = [] ∧ prior f ≠ [].

#[global] Instance short_circuit_dec data0 f : Decision (short_circuit data0 f).
Proof. unfold short_circuit. apply _. Defined.

(** [new Date] reads the date of every entry. *)
Definition dated (Date_parse : jsval → option Z) (l : list Activity) : Prop :=
  Forall (λ x, is_Some (Date_parse (date x))) l.

(** The files the script itself can leave behind: none, or what a run
    over a batch of dated activities leaves. *)
Inductive persisted (Date_parse : jsval → option Z) : file → Prop :=
| persisted_none : persisted Date_parse Missing
| persisted_run now data0 f :
    persisted Date_parse f →
    dated Date_parse data0 →
    persisted Date_parse (saveAsJson Date_parse now data0 f).1.2.

(** The number [new Date(x.date)] stands for, [0] standing in for [NaN]. *)
Definition instant (Date_parse : jsval → option Z) (x : Activity) : Z :=
  default 0 (Date_parse (date x)).

(** Every entry is one of the two kinds of activity. *)
Definition well_typed (l : list Activity) : Prop :=
  Forall (λ x, type x = Commit_type ∨ type x = MergeRequest_type) l.

(** ** The host at the points the examples visit

    A Node.js process in the time zone UTC with the dayjs locale [id], as
    far as the examples go: date-time strings of the form
    [YYYY-MM-DDTHH:mm:ss], with or without milliseconds [.sss] and a zone
    [Z] or [+HH:mm], and day labels of the form [weekday, D month YYYY].
    As the engine does, a day of the month up to 31 is taken whatever the
    month is and counted on into the next one.  On any other string the
    functions below answer as for an unparseable one, which need not be
    what the host does; no example leaves these forms. *)
Module Host.
Definition digit (c : N) : option Z :=
  if ((48 <=? c) && (c <=? 57))%N then Some (Z.of_N c - 48) else None.

Fixpoint digits (acc : Z) (s : jsstring) : option Z :=
  match s with
  | [] => Some acc
  | c :: s' =>
      match digit c with
      | Some d => digits (10 * acc + d) s'
      | None => None
      end
  end.

Definition number (s : jsstring) : option Z :=
  match s with
  | [] => None
  | _ => digits 0 s
  end.

(** Days from 1970-01-01 to the given day of the Gregorian calendar. *)
Definition days_from_civil (y m d : Z) : Z :=
  let y' := if m <=? 2 then y - 1 else y in
  let era := y' / 400 in
  let yoe := y' - era * 400 in
  let doy := (153 * ((m + 9) mod 12) + 2) / 5 + d - 1 in
  let doe := yoe * 365 + yoe / 4 - yoe / 100 + doy in
  era * 146097 + doe - 719468.

(** The day of the Gregorian calendar that many days after 1970-01-01:
    year, month, day of the month. *)
Definition civil_from_days (days : Z) : Z * Z * Z :=
  let z := days + 719468 in
  let era := z / 146097 in
  let doe := z - era * 146097 in
  let yoe := (doe - doe / 1460 + doe / 36524 - doe / 146096) / 365 in
  let doy := doe - (365 * yoe + yoe / 4 - yoe / 100) in
  let mp := (5 * doy + 2) / 153 in
  let d := doy - (153 * mp + 2) / 5 + 1 in
  let m := if mp <? 10 then mp + 3 else mp - 9 in
  (yoe + era * 400 + (if m <=? 2 then 1 else 0), m, d).

Definition ms_per_day : Z := 86400000.

Definition utc (y m d h mi sec ms : option Z) : option Z :=
  match y, m, d, h, mi, sec, ms with
  | Some y, Some m, Some d, Some h, Some mi, Some sec, Some ms =>
      if bool_decide (1 ≤ m ≤ 12 ∧ 1 ≤ d ≤ 31
                      ∧ (h ≤ 23 ∧ mi ≤ 59 ∧ sec ≤ 59
                         ∨ h = 24 ∧ mi = 0 ∧ sec = 0 ∧ ms = 0))
      then Some (days_from_civil y m d * ms_per_day
                 + ((h * 60 + mi) * 60 + sec) * 1000 + ms)
      else None
  | _, _, _, _, _, _, _ => None
  end.

Definition slice (from len : nat) (s : jsstring) : jsstring :=
  take len (drop from s).

(** The zone at the end of a date-time string, in minutes east of UTC:
    [Z], [+HH:mm], [-HH:mm], or nothing, which is local time. *)
Definition zone (s : jsstring) : option Z :=
  if bool_decide (s = [] ∨ s = lit "Z") then Some 0
  else if bool_decide (length s = 6%nat ∧ slice 3 1 s = lit ":") then
    match number (slice 1 2 s), number (slice 4 2 s) with
    | Some h, Some mi =>
        if bool_decide (h ≤ 23 ∧ mi ≤ 59) then
          if bool_decide (slice 0 1 s = lit "+") then Some (h * 60 + mi)
          else if bool_decide (slice 0 1 s = lit "-") then Some (- (h * 60 + mi))
          else None
        else None
    | _, _ => None
    end
  else None.

(** [YYYY-MM-DDTHH:mm:ss], then [.sss] or nothing, then the zone. *)
Definition iso_time (s : jsstring) : option Z :=
  if bool_decide (slice 4 1 s = lit "-" ∧ slice 7 1 s = lit "-"
                  ∧ slice 10 1 s = lit "T" ∧ slice 13 1 s = lit ":"
                  ∧ slice 16 1 s = lit ":")
  then
    let tail := drop 19 s in
    let '(ms, tail) :=
      if bool_decide (slice 0 1 tail = lit ".")
      then (if bool_decide (length (slice 1 3 tail) = 3%nat)
            then number (slice 1 3 tail) else None, drop 4 tail)
      else (Some 0, tail) in
    match utc (number (slice 0 4 s)) (number (slice 5 2 s))
              (number (slice 8 2 s)) (number (slice 11 2 s))
              (number (slice 14 2 s)) (number (slice 17 2 s)) ms,
          zone tail with
    | Some t, Some z => Some (t - z * 60000)
    | _, _ => None
    end
  else None.

(** Words and numbers of a day label, split at spaces and commas. *)
Definition separator (c : N) : bool := ((c =? 32) || (c =? 44))%N.

Fixpoint tokens (word : jsstring) (s : jsstring) : list jsstring :=
  match s with
  | [] => match word with [] => [] | _ => [word] end
  | c :: s' =>
      if separator c then
        match word with
        | [] => tokens [] s'
        | _ => word :: tokens [] s'
        end
      else tokens (word ++ [c]) s'
  end.

Definition lower (c : N) : N :=
  if ((65 <=? c) && (c <=? 90))%N then (c + 32)%N else c.

Definition english_months : list jsstring :=
  lit <$> ["jan"; "feb"; "mar"; "apr"; "may"; "jun";
           "jul"; "aug"; "sep"; "oct"; "nov"; "dec"]%string.

(** The month a word names for the engine's fallback parser: the one
    whose English name starts with the same three letters. *)
Definition month_of_word (w : jsstring) : option Z :=
  match list_find (λ m, m = lower <$> take 3 w) english_months with
  | Some (i, _) => Some (Z.of_nat i + 1)
  | None => None
  end.

Record legacy := {
  numbers : list Z;
  named_month : option Z
}.

(** The fallback parser on words and numbers: a word before the first
    number is skipped unless it names a month, an unknown word after a
    number makes the date invalid. *)
Fixpoint legacy_scan (ts : list jsstring) (st : legacy) : option legacy :=
  match ts with
  | [] => Some st
  | t :: ts' =>
      match number t with
      | Some n =>
          legacy_scan ts' {| numbers := numbers st ++ [n];
                             named_month := named_month st |}
      | None =>
          match month_of_word t with
          | Some m =>
              legacy_scan ts' {| numbers := numbers st;
                                 named_month := Some m |}
          | None =>
              match numbers st with
              | [] => legacy_scan ts' st
              | _ => None
              end
          end
      end
  end.

(** Midnight, local time, of a label with a named month, a day and a
    year. *)
Definition legacy_time (s : jsstring) : option Z :=
  match legacy_scan (tokens [] s) {| numbers := []; named_month := None |} with
  | Some {| numbers := [d; y]; named_month := Some m |} =>
      utc (Some y) (Some m) (Some d) (Some 0) (Some 0) (Some 0) (Some 0)
  | _ => None
  end.

(** [new Date(v).getTime()] *)
Definition Date_parse (v : jsval) : option Z :=
  match v with
  | JUndefined => None
  | JNull => Some 0
  | JStr s =>
      match iso_time s with
      | Some t => Some t
      | None => legacy_time s
      end
  end.

Fixpoint decimal_digits (fuel : nat) (n : Z) (acc : jsstring) : jsstring :=
  match fuel with
  | O => acc
  | S fuel' =>
      let acc' := Z.to_N (48 + n mod 10) :: acc in
      if n / 10 =? 0 then acc' else decimal_digits fuel' (n / 10) acc'
  end.

Definition decimal (n : Z) : jsstring := decimal_digits 20 n [].

Definition weekdays : list jsstring :=
  lit <$> ["Minggu"; "Senin"; "Selasa"; "Rabu"; "Kamis"; "Jumat";
           "Sabtu"]%string.

Definition months : list jsstring :=
  lit <$> ["Januari"; "Februari"; "Maret"; "April"; "Mei"; "Juni"; "Juli";
           "Agustus"; "September"; "Oktober"; "November";
           "Desember"]%string.

(** The clock of the examples: 2024-07-01T00:00:00.000Z. *)
Definition now : Z := 1719792000000.

(** [.format("dddd, D MMMM YYYY")] of an instant. *)
Definition format (t : Z) : jsstring :=
  let days := t / ms_per_day in
  let '(y, m, d) := civil_from_days days in
  default [] (weekdays !! Z.to_nat ((days + 4) mod 7)) ++ lit ", " ++ decimal d
  ++ lit " " ++ default [] (months !! Z.to_nat (m - 1))
  ++ lit " " ++ decimal y.

(** [dayjs(v).format("dddd, D MMMM YYYY")]: dayjs takes [undefined] for
    the present moment and [null] for no date at all, and hands a string
    of the forms above to [new Date]. *)
Definition dayLabel (v : jsval) : jsstring :=
  match v with
  | JUndefined => format now
  | JNull => lit "Invalid Date"
  | JStr s =>
      match Date_parse (JStr s) with
      | Some t => format t
      | None => lit "Invalid Date"
      end
  end.
End Host.

(** ** Where a collected commit comes from *)

Section Provenance.
Variable remote : Remote.
Variables (projectId : Z) (userEmail : jsstring).
Variable mergeRequests : list MR.t.

(** [commit] is one of the user's commits in the answered commit list of
    the merge request [mr]. *)
Definition in_merge_request (mr : MR.t) (commit : ApiCommit.t) : Prop :=
  mr ∈ mergeRequests
  ∧ ∃ commits, mr_commits_of remote projectId (MR.iid mr) = Some commits
               ∧ commit ∈ commits
               ∧ ApiCommit.author_email commit = userEmail.

(** [commit] is one of the user's commits in the answered commit list of
    the listed branch [branch_name]. *)
Definition on_branch (branch_name : jsstring) (commit : ApiCommit.t) : Prop :=
  ∃ branches commits,
    branches_of remote projectId = Some branches
    ∧ branch_name ∈ branches
    ∧ branch_commits_of remote projectId branch_name = Some commits
    ∧ commit ∈ commits
    ∧ ApiCommit.author_email commit = userEmail.

(** [commit] stands in an answered commit list, of a merge request given
    or of a listed branch, whoever its author is. *)
Definition shown (commit : ApiCommit.t) : Prop :=
  (∃ mr commits,
     mr ∈ mergeRequests
     ∧ mr_commits_of remote projectId (MR.iid mr) = Some commits
     ∧ commit ∈ commits)
  ∨ (∃ branches branch_name commits,
       branches_of remote projectId = Some branches
       ∧ branch_name ∈ branches
       ∧ branch_commits_of remote projectId branch_name = Some commits
       ∧ commit ∈ commits).

Definition from_mr (a : Activity) : Prop :=
  ∃ mr commit, in_merge_request mr commit ∧ a = mr_commit_activity mr commit.

Definition from_walk (a : Activity) : Prop :=
  ∃ branch_name commit,
    on_branch branch_name commit
    ∧ a = branch_commit_activity branch_name commit.

(** Pushed by the walk: a commit of a listed branch, not seen when the
    walk began in the state [st0]. *)
Definition walked (st0 : Collect) (a : Activity) : Prop :=
  ∃ branch_name commit,
    on_branch branch_name commit
    ∧ (ApiCommit.id commit ∉ seenCommits st0)
    ∧ a = branch_commit_activity branch_name commit.
End Provenance.

(** The seen-set holds the ids pushed so far, each once. *)
Definition coherent (st : Collect) : Prop :=
  NoDup (sha <$> allCommits st)
  ∧ ∀ id, id ∈ seenCommits st ↔ JStr id ∈ sha <$> allCommits st.

(** [st'] is [st] after some pushes, each of an activity satisfying [Q]. *)
Definition extends (Q : Activity → Prop) (st st' : Collect) : Prop :=
  ∃ new, allCommits st' = allCommits st ++ new
         ∧ seenCommits st ⊆ seenCommits st'
         ∧ ∀ a, a ∈ new → Q a.

(** ** fetchAllPages

    The loop asks for page 1, 2, .. until a page comes back empty.  [get]
    is [api.get] on the url of a page: the array [res.data], or [None]
    when the request throws.  The loop need not end, so the model counts
    the requests it may still make. *)
Inductive fetched (A : Type) :=
| Returned (results : list A)
| Thrown
| Unfinished.
Arguments Returned {A} results.
Arguments Thrown {A}.
Arguments Unfinished {A}.

Section Pages.
Context {A : Type}.
Variable get : nat → option (list A).

Fixpoint fetch_pages (requests page : nat) (results : list A) : fetched A :=
  match requests with
  | O => Unfinished
  | S requests' =>
      match get page with
      | None => Thrown
      | Some res_data =>
          if (length res_data =? 0)%nat then Returned results
          else fetch_pages requests' (S page) (results ++ res_data)
      end
  end.

Definition fetchAllPages (requests : nat) : fetched A :=
  fetch_pages requests 1 [].

(** Page [p] came back with something in it. *)
Definition filled (p : nat) : Prop := ∃ res_data, get p = Some res_data ∧ res_data ≠ [].

(** What the pages [1 .. n] hold, in order. *)
Definition pages_upto (n : nat) : list A :=
  concat ((λ p, default [] (get p)) <$> seq 1 n).
End Pages.

(** ** buildCommitToBranchMapping *)

Module Mapping.
Record t := {
  source : jsstring;
  target : jsstring;
  isMergeCommit : bool
}.

Definition of_mr (mr : MR.t) : t :=
  {| source := MR.source mr; target := MR.target mr; isMergeCommit := true |}.
End Mapping.

(** A [Map] from the merge commit sha of a merge request to its branches. *)
Definition buildCommitToBranchMapping (mergeRequests : list MR.t)
  : gmap jsval Mapping.t :=
  foldl (λ commitToBranch mr,
           if truthy (MR.sha mr)
           then <[MR.sha mr := Mapping.of_mr mr]> commitToBranch
           else commitToBranch)
    ∅ mergeRequests.

(** ** What a pattern matches

    [regex_matches r w caps caps']: the pattern [r] can consume exactly
    [w], taking the captures from [caps] to [caps']. *)
Inductive regex_matches
  : Regex.regex → jsstring → Regex.captures → Regex.captures → Prop :=
| matches_eps caps : regex_matches Regex.Eps [] caps caps
| matches_chr c caps : regex_matches (Regex.Chr c) [c] caps caps
| matches_dot c caps :
    Regex.LineTerminator c = false → regex_matches Regex.Dot [c] caps caps
| matches_seq r1 r2 w1 w2 caps caps1 caps2 :
    regex_matches r1 w1 caps caps1 →
    regex_matches r2 w2 caps1 caps2 →
    regex_matches (Regex.Seq r1 r2) (w1 ++ w2) caps caps2
| matches_star_stop greedy r caps :
    regex_matches (Regex.Star greedy r) [] caps caps
| matches_star_more greedy r w1 w2 caps caps1 caps2 :
    w1 ≠ [] →
    regex_matches r w1 caps caps1 →
    regex_matches (Regex.Star greedy r) w2 caps1 caps2 →
    regex_matches (Regex.Star greedy r) (w1 ++ w2) caps caps2
| matches_group i r w caps caps1 :
    regex_matches r w caps caps1 →
    regex_matches (Regex.Group i r) w caps (<[i := w]> caps1).

(** No line terminator in [w]. *)
Definition one_line (w : jsstring) : Prop :=
  Forall (λ c, Regex.LineTerminator c = false) w.

(** ** States of the collection that differ in the console only *)
Definition same_commits (st st' : Collect) : Prop :=
  allCommits st = allCommits st' ∧ seenCommits st = seenCommits st'.

(** ** The text report: rendering and writing *)

(** [Array.prototype.join] *)
Fixpoint join (sep : jsstring) (parts : list jsstring) : jsstring :=
  match parts with
  | [] => []
  | [p] => p
  | p :: rest => p ++ sep ++ join sep rest
  end.

Definition newline : jsstring := [10%N].

(** The three pictograms, as the code units the file holds. *)
Definition calendar_sign : jsstring := [240; 376; 8220; 8230]%N.
Definition memo_sign : jsstring := [240; 376; 8220]%N.
Definition shuffle_sign : jsstring := [240; 376; 8221; 8364]%N.

(** [c.from_merge_request ? .. : ..] reads the property as a boolean. *)
Definition flag (b : option bool) : bool := default false b.

(** One line for a commit. *)
Definition render_commit (c : Activity) : jsstring :=
  let fromMR :=
    if flag (from_merge_request c)
    then lit " (from MR: `" ++ ToString (mr_source c) ++ arrow
         ++ ToString (mr_target c) ++ lit "`)"
    else [] in
  let branchLabel :=
    lit "[" ++ ToString (branch c)
    ++ (if truthy (target_branch c)
        then lit " / " ++ ToString (target_branch c) else [])
    ++ lit "]" in
  let project := js_or (project c) (JStr (lit "Unknown Project")) in
  lit "- [`" ++ ToString project ++ lit "`] " ++ branchLabel ++ lit " "
  ++ ToString (title c) ++ fromMR.

(** One line for a merge request. *)
Definition render_mr (mr : Activity) : jsstring :=
  let project := js_or (project mr) (JStr (lit "Unknown Project")) in
  lit "- [`" ++ ToString project ++ lit "`] [" ++ ToString (source mr) ++ arrow
  ++ ToString (target mr) ++ lit "] " ++ ToString (title mr).

(** The lines pushed for one day: the body of the loop over the sorted
    entries. *)
Definition render_day (e : jsstring * list Activity) : list jsstring :=
  let commits := filter (is_type Commit_type) e.2 in
  let mrs0 := filter (is_type MergeRequest_type) e.2 in
  [newline ++ lit "## " ++ calendar_sign ++ lit " " ++ e.1 ++ newline]
  ++ (if (length commits =? 0)%nat then []
      else [lit "### " ++ memo_sign ++ lit " Commits"]
           ++ (render_commit <$> commits) ++ [[]])
  ++ (if (length mrs0 =? 0)%nat then []
      else [lit "### " ++ shuffle_sign ++ lit " Merge Requests"]
           ++ (render_mr <$> mrs0) ++ [[]]).

Definition report_title : jsstring := lit "# GitLab Activity History" ++ newline.

(** [existingContent.replace(/^# GitLab Activity History\n/, "")]: the
    pattern is anchored at the start of the text. *)
Definition strip_title (content : jsstring) : jsstring :=
  if decide (take (length report_title) content = report_title)
  then drop (length report_title) content
  else content.

(** A bullet line of the report. *)
Definition is_bullet (l : jsstring) : Prop := take 4 l = lit "- [`".

#[global] Instance is_bullet_dec l : Decision (is_bullet l).
Proof. unfold is_bullet. apply _. Defined.

(** An activity the report has a line for. *)
Definition reported (x : Activity) : Prop :=
  type x = Commit_type ∨ type x = MergeRequest_type.

#[global] Instance reported_dec x : Decision (reported x).
Proof. unfold reported. apply _. Defined.

Section WriteReport.
Variable dayLabel : jsval → jsstring.
Variable Date_parse : jsval → option Z.

(** [newLines] once the loop is over. *)
Definition report_lines (ids : Existing) (data0 : list Activity)
  : list jsstring :=
  concat (render_day <$> day_sections dayLabel Date_parse ids data0).

(** [saveGroupedToMarkdown(data, filename)]: the text of the file
    afterwards, [None] for no file.  [ids] is what [extractExistingIds]
    returned for the file; a file that exists is taken to be readable. *)
Definition saveGroupedToMarkdown (ids : Existing) (data0 : list Activity)
    (f : option jsstring) : option jsstring :=
  if (length (filter (is_new ids) data0) =? 0)%nat then f
  else
    let newLines := report_lines ids data0 in
    match f with
    | Some existingContent =>
        Some (report_title ++ join newline newLines ++ strip_title existingContent)
    | None => Some (report_title ++ join newline newLines)
    end.
End WriteReport.

(** Pushed by the loop over the merge requests [mrs0], begun in the state
    [st0]: a commit of the user in the answered list of one of them, not
    seen before. *)
Definition pushed_by_mrs (remote : Remote) (projectId : Z) (userEmail : jsstring)
    (mrs0 : list MR.t) (st0 : Collect) (a : Activity) : Prop :=
  ∃ mr commits c,
    mr ∈ mrs0
    ∧ mr_commits_of remote projectId (MR.iid mr) = Some commits
    ∧ c ∈ commits
    ∧ ApiCommit.author_email c = userEmail
    ∧ (ApiCommit.id c ∉ seenCommits st0)
    ∧ a = mr_commit_activity mr c.

(** Pushed by the loop over the branches [bs], begun in the state [st0]. *)
Definition pushed_by_walk (remote : Remote) (projectId : Z) (userEmail : jsstring)
    (bs : list jsstring) (st0 : Collect) (a : Activity) : Prop :=
  ∃ b commits c,
    b ∈ bs
    ∧ branch_commits_of remote projectId b = Some commits
    ∧ c ∈ commits
    ∧ ApiCommit.author_email c = userEmail
    ∧ (ApiCommit.id c ∉ seenCommits st0)
    ∧ a = branch_commit_activity b c.

(** ** Sample data *)

Module Sample.
Definition commit (id day text : string) : Activity :=
  {| type := Commit_type;
     project := JStr (lit "P");
     title := JStr (lit text);
     date := JStr (lit day);
     sha := JStr (lit id);
     iid := None;
     source := JUndefined;
     target := JUndefined;
     branch := JStr (lit "main");
     target_branch := JNull;
     from_merge_request := Some false;
     mr_source := JNull;
     mr_target := JNull |}.

Definition a1 : Activity := commit "a1" "2024-01-01T00:00:00Z" "init".
Definition b2 : Activity := commit "b2" "2024-01-02T00:00:00Z" "fix".

(** Two merge requests of one project from [develop] into [main]. *)
Definition release (n : Z) (day : string) : MR.t :=
  {| MR.iid := n;
     MR.sha := JNull;
     MR.source := lit "develop";
     MR.target := lit "main";
     MR.title := lit "Release";
     MR.date := lit day |}.

Definition release1 : Activity :=
  mr_activity (lit "P") (release 1 "2024-05-10T09:00:00Z").
Definition release2 : Activity :=
  mr_activity (lit "P") (release 2 "2024-06-10T09:00:00Z").

(** Merge requests of another project, of June and of July. *)
Definition hotfix : Activity :=
  mr_activity (lit "Q")
    {| MR.iid := 3;
       MR.sha := JNull;
       MR.source := lit "hotfix";
       MR.target := lit "main";
       MR.title := lit "Fix crash";
       MR.date := lit "2024-06-10T12:00:00Z" |}.

Definition retro : Activity :=
  mr_activity (lit "Q")
    {| MR.iid := 4;
       MR.sha := JNull;
       MR.source := lit "cleanup";
       MR.target := lit "main";
       MR.title := lit "Tidy up";
       MR.date := lit "2024-07-08T08:00:00Z" |}.

(** An object that is neither a commit nor a merge request. *)
Definition note : Activity :=
  {| type := JStr (lit "Note");
     project := JStr (lit "P");
     title := JStr (lit "remark");
     date := JStr (lit "2024-01-03T00:00:00Z");
     sha := JUndefined;
     iid := None;
     source := JUndefined;
     target := JUndefined;
     branch := JUndefined;
     target_branch := JUndefined;
     from_merge_request := None;
     mr_source := JUndefined;
     mr_target := JUndefined |}.

Definition clock : jsstring := lit "2024-07-01T00:00:00.000Z".

(** The record of the end-to-end scenario. *)
Definition record_a1 : file := written clock [a1].

(** A project and a fork of it.  The project has one merge request, from
    [feat] into [main], with the commit [x1]; its branches [feat] and
    [main] both hold [x1], and [main] holds a merge commit as well.  The
    fork has the branch [main] alone, with the same two commits. *)
Definition me : ApiUser.t :=
  {| ApiUser.id := 42; ApiUser.email := lit "me@example.org" |}.

Definition x1 : ApiCommit.t :=
  {| ApiCommit.id := lit "x1";
     ApiCommit.title := lit "Add login form";
     ApiCommit.created_at := lit "2024-06-09T10:00:00Z";
     ApiCommit.author_email := lit "me@example.org" |}.

Definition merge_commit : ApiCommit.t :=
  {| ApiCommit.id := lit "m9";
     ApiCommit.title := lit "Merge branch 'feat/login' into develop";
     ApiCommit.created_at := lit "2024-06-10T09:00:00Z";
     ApiCommit.author_email := lit "me@example.org" |}.

Definition feat_into_main : ApiMR.t :=
  {| ApiMR.iid := 7;
     ApiMR.merge_commit_sha := JNull;
     ApiMR.source_branch := lit "feat";
     ApiMR.target_branch := lit "main";
     ApiMR.title := lit "Login";
     ApiMR.created_at := lit "2024-06-09T11:00:00Z" |}.

Definition app : ApiProject.t :=
  {| ApiProject.id := 1; ApiProject.name_with_namespace := lit "team / app" |}.
Definition fork : ApiProject.t :=
  {| ApiProject.id := 2; ApiProject.name_with_namespace := lit "me / app" |}.

Definition server : Remote :=
  {| merge_requests_of := λ p _,
       if p =? 1 then Some [feat_into_main] else Some [];
     mr_commits_of := λ p n,
       if (p =? 1) && (n =? 7) then Some [x1] else None;
     branches_of := λ p,
       if p =? 1 then Some [lit "feat"; lit "main"] else Some [lit "main"];
     branch_commits_of := λ p b,
       if bool_decide (b = lit "feat") then Some [x1]
       else Some [merge_commit; x1] |}.

Definition feat_into_main_mr : MR.t :=
  {| MR.iid := 7;
     MR.sha := JNull;
     MR.source := lit "feat";
     MR.target := lit "main";
     MR.title := lit "Login";
     MR.date := lit "2024-06-09T11:00:00Z" |}.


(** A commit of a colleague. *)
Definition theirs : ApiCommit.t :=
  {| ApiCommit.id := lit "t5";
     ApiCommit.title := lit "Bump version";
     ApiCommit.created_at := lit "2024-06-09T12:00:00Z";
     ApiCommit.author_email := lit "you@example.org" |}.

(** A server whose merge requests show the commit of the colleague, and
    whose one branch holds it next to [x1]. *)
Definition shared : Remote :=
  {| merge_requests_of := λ _ _, Some [feat_into_main];
     mr_commits_of := λ _ _, Some [theirs];
     branches_of := λ _, Some [lit "main"];
     branch_commits_of := λ _ _, Some [x1; theirs] |}.

(** A server with three branches: [docs] holds the merge commit alone,
    [feat] holds [x1], [main] holds both; its merge requests show the
    merge commit. *)
Definition three_branches : Remote :=
  {| merge_requests_of := λ _ _, Some [feat_into_main];
     mr_commits_of := λ _ _, Some [merge_commit];
     branches_of := λ _, Some [lit "docs"; lit "feat"; lit "main"];
     branch_commits_of := λ _ b,
       if bool_decide (b = lit "docs") then Some [merge_commit]
       else if bool_decide (b = lit "feat") then Some [x1]
       else Some [merge_commit; x1] |}.

(** A record cut through by a [null]: [{"activities": [a1, null, b2]}]. *)
Definition torn : Raw.file :=
  Raw.Text (Raw.Object (Raw.Truthy (Raw.Arr [Some a1; None; Some b2])) None).

(** [{"activities": 5}] *)
Definition five : Raw.file :=
  Raw.Text (Raw.Object (Raw.Truthy Raw.Scalar) None).
End Sample.

(** * Properties *)

(** ** The sort *)

Section ArraySortFacts.
Context {A : Type} (comparefn : A → A → option Z).

Lemma sort_insert_perm x l : sort_insert comparefn x l ≡ₚ x :: l.
Proof.
  induction l as [|y l IH]; simpl; [done|].
  case_bool_decide; [|done].
  rewrite IH. apply Permutation_swap.
Qed.

Lemma Array_sort_perm l : Array_sort comparefn l ≡ₚ l.
Proof.
  induction l as [|x l IH]; simpl; [done|].
  by rewrite sort_insert_perm, IH.
Qed.

Lemma Array_sort_nil_inv l : Array_sort comparefn l = [] → l = [].
Proof.
  intros H. apply Permutation_nil_r. rewrite <- H.
  symmetry. apply Array_sort_perm.
Qed.

Context (key : A → Z).

Lemma sort_insert_sorted x l :
  (∀ y, y ∈ l → comparefn x y = Some (key y - key x)) →
  StronglySorted (key_desc key) l →
  StronglySorted (key_desc key) (sort_insert comparefn x l).
Proof.
  induction l as [|y l IH]; intros Hc Hs; simpl.
  - repeat constructor.
  - pose proof (Hc y (list_elem_of_here _ _)) as Hxy.
    apply StronglySorted_inv in Hs as [Hs Hy].
    unfold SortCompare. rewrite Hxy. simpl.
    case_bool_decide as Hlt.
    + constructor.
      * apply IH; [|done]. intros z Hz. apply Hc. by right.
      * rewrite sort_insert_perm. constructor; [unfold key_desc; lia|done].
    + constructor; [by constructor|].
      constructor; [unfold key_desc; lia|].
      eapply Forall_impl; [exact Hy|].
      unfold key_desc. intros z Hz. lia.
Qed.

Lemma Array_sort_sorted l :
  orders_by_key_desc comparefn key l → StronglySorted (key_desc key) (Array_sort comparefn l).
Proof.
  induction l as [|x l IH]; intros Hc; simpl; [constructor|].
  apply sort_insert_sorted.
  - intros y Hy. rewrite Array_sort_perm in Hy.
    apply Hc; [left|by right].
  - apply IH. intros y z Hy Hz. apply Hc; by right.
Qed.

(** Stability: the elements a predicate picks from one key class come
    out in the order they went in. *)
Context (P : A → Prop) `{∀ a, Decision (P a)}.
Hypothesis P_one_key : ∀ x y, P x → P y → key x = key y.

Lemma sort_insert_stable x l :
  (∀ y, y ∈ l → comparefn x y = Some (key y - key x)) →
  filter P (sort_insert comparefn x l) = filter P (x :: l).
Proof.
  induction l as [|y l IH]; intros Hc; simpl; [done|].
  pose proof (Hc y (list_elem_of_here _ _)) as Hxy.
  unfold SortCompare. rewrite Hxy. simpl.
  case_bool_decide as Hlt; [|done].
  rewrite filter_cons, IH by (intros z Hz; apply Hc; by right).
  rewrite !filter_cons.
  destruct (decide (P y)) as [Hy|], (decide (P x)) as [Hx|]; try done.
  pose proof (P_one_key x y Hx Hy). lia.
Qed.

Lemma Array_sort_stable l :
  orders_by_key_desc comparefn key l →
  filter P (Array_sort comparefn l) = filter P l.
Proof.
  induction l as [|x l IH]; intros Hc; simpl; [done|].
  rewrite sort_insert_stable.
  - rewrite !filter_cons, IH; [done|].
    intros y z Hy Hz. apply Hc; by right.
  - intros y Hy. rewrite Array_sort_perm in Hy.
    apply Hc; [left|by right].
Qed.

(** A comparator that answers [NaN] throughout moves nothing. *)
Lemma Array_sort_all_NaN l :
  (∀ x y, x ∈ l → y ∈ l → comparefn x y = None) →
  Array_sort comparefn l = l.
Proof.
  induction l as [|x l IH]; intros Hc; simpl; [done|].
  rewrite IH by (intros y z Hy Hz; apply Hc; by right).
  destruct l as [|y l]; simpl; [done|].
  unfold SortCompare. rewrite Hc; [done|left|right; left].
Qed.
End ArraySortFacts.

(** ** What the prior record holds *)

Lemma Commit_is_not_MergeRequest : Commit_type ≠ MergeRequest_type.
Proof. discriminate. Qed.

Lemma foldl_record_identity_data ex l :
  data (foldl record_identity ex l) = data ex.
Proof.
  revert ex. induction l as [|x l IH]; intros ex; simpl; [done|].
  rewrite IH. unfold record_identity. by repeat case_decide.
Qed.

Lemma foldl_record_identity_shas ex l v :
  v ∈ shas (foldl record_identity ex l) ↔
  v ∈ shas ex ∨ ∃ x, x ∈ l ∧ type x = Commit_type ∧ sha x = v.
Proof.
  revert ex. induction l as [|x l IH]; intros ex; simpl.
  - split; [by left|]. intros [?|(x & Hx & _)]; [done|]. by apply elem_of_nil in Hx.
  - rewrite IH. unfold record_identity. split.
    + intros [Hv|(y & Hy & Ht & Hs)].
      * repeat case_decide; simpl in Hv.
        -- apply elem_of_union in Hv as [Hv%elem_of_singleton|Hv]; [|by left].
           right. exists x. split; [left|done].
        -- by left.
        -- by left.
      * right. exists y. split; [by right|done].
    + intros [Hv|(y & Hy & Ht & Hs)].
      * left. repeat case_decide; simpl; [by apply elem_of_union_r|done|done].
      * apply elem_of_cons in Hy as [->|Hy]; [|right; by exists y].
        left. rewrite decide_True by done. simpl.
        by apply elem_of_union_l, elem_of_singleton.
Qed.

Lemma foldl_record_identity_mrs ex l k :
  k ∈ mrs (foldl record_identity ex l) ↔
  k ∈ mrs ex ∨ ∃ x, x ∈ l ∧ type x = MergeRequest_type ∧ mrKey x = k.
Proof.
  revert ex. induction l as [|x l IH]; intros ex; simpl.
  - split; [by left|]. intros [?|(x & Hx & _)]; [done|]. by apply elem_of_nil in Hx.
  - rewrite IH. unfold record_identity. split.
    + intros [Hv|(y & Hy & Ht & Hs)].
      * repeat case_decide; simpl in Hv.
        -- by left.
        -- apply elem_of_union in Hv as [Hv%elem_of_singleton|Hv]; [|by left].
           right. exists x. split; [left|done].
        -- by left.
      * right. exists y. split; [by right|done].
    + intros [Hv|(y & Hy & Ht & Hs)].
      * left. repeat case_decide; simpl; [done|by apply elem_of_union_r|done].
      * apply elem_of_cons in Hy as [->|Hy]; [|right; by exists y].
        left. rewrite decide_False by (rewrite Ht; discriminate).
        rewrite decide_True by done. simpl.
        by apply elem_of_union_l, elem_of_singleton.
Qed.

(** The identity sets are those of the entries of the prior record. *)
Lemma existing_shas f v :
  v ∈ shas (extractExistingFromJson f).1 ↔
  ∃ x, x ∈ prior f ∧ type x = Commit_type ∧ sha x = v.
Proof.
  unfold prior.
  destruct f as [| |[| | |o]]; simpl;
    try (split; [intros H; by apply not_elem_of_empty in H
                |intros (x & Hx & _); by apply elem_of_nil in Hx]).
  rewrite foldl_record_identity_shas, foldl_record_identity_data. simpl.
  split; [intros [H|H]; [by apply not_elem_of_empty in H|done]|by right].
Qed.

Lemma existing_mrs f k :
  k ∈ mrs (extractExistingFromJson f).1 ↔
  ∃ x, x ∈ prior f ∧ type x = MergeRequest_type ∧ mrKey x = k.
Proof.
  unfold prior.
  destruct f as [| |[| | |o]]; simpl;
    try (split; [intros H; by apply not_elem_of_empty in H
                |intros (x & Hx & _); by apply elem_of_nil in Hx]).
  rewrite foldl_record_identity_mrs, foldl_record_identity_data. simpl.
  split; [intros [H|H]; [by apply not_elem_of_empty in H|done]|by right].
Qed.

Lemma prior_written o : prior (Text (Parsed o)) = activities o.
Proof. unfold prior. simpl. by rewrite foldl_record_identity_data. Qed.

(** ** The two paths of saveAsJson *)

Section ReconcileFacts.
Variable Date_parse : jsval → option Z.

Lemma saveAsJson_short_circuit now data0 f :
  short_circuit data0 f →
  saveAsJson Date_parse now data0 f
  = (prior f, f,
     (extractExistingFromJson f).2 ++ [Log_no_new_activity_json]).
Proof.
  intros [Hd Hp]. unfold saveAsJson, filteredData, prior in *.
  destruct (extractExistingFromJson f) as [existing warnings]; simpl in *.
  rewrite Hd. simpl.
  rewrite bool_decide_eq_true_2; [done|].
  destruct (data existing); [done|simpl; lia].
Qed.

Lemma saveAsJson_sort now data0 f :
  ¬ short_circuit data0 f →
  saveAsJson Date_parse now data0 f
  = (let allData :=
       Array_sort (by_date_desc Date_parse) (prior f ++ filteredData data0 f) in
     (allData, written now allData,
      (extractExistingFromJson f).2
      ++ [Log_updated_json (length (filteredData data0 f))])).
Proof.
  intros Hn. unfold short_circuit, saveAsJson, filteredData, prior in *.
  destruct (extractExistingFromJson f) as [existing warnings]; simpl in *.
  destruct (filter (is_new existing) data0) as [|x l] eqn:Hf; simpl; [|done].
  rewrite bool_decide_eq_false_2; [done|].
  intros Hlen. apply Hn. split; [done|].
  destruct (data existing); [simpl in Hlen; lia|done].
Qed.

Lemma saveAsJson_perm now data0 f :
  (saveAsJson Date_parse now data0 f).1.1 ≡ₚ prior f ++ filteredData data0 f.
Proof.
  destruct (decide (short_circuit data0 f)) as [Hs|Hs].
  - rewrite saveAsJson_short_circuit by done. simpl.
    destruct Hs as [-> _]. by rewrite app_nil_r.
  - rewrite saveAsJson_sort by done. simpl. apply Array_sort_perm.
Qed.

(** What the next run finds is what this run returns, unless this run
    had nothing to start from and nothing to add. *)
Lemma prior_saveAsJson now data0 f :
  prior (saveAsJson Date_parse now data0 f).1.2
  = (saveAsJson Date_parse now data0 f).1.1.
Proof.
  destruct (decide (short_circuit data0 f)) as [Hs|Hs].
  - by rewrite saveAsJson_short_circuit.
  - rewrite saveAsJson_sort by done. simpl. apply prior_written.
Qed.
End ReconcileFacts.

(** ** Reconciliation *)

Lemma dated_orders Date_parse l :
  dated Date_parse l →
  orders_by_key_desc (by_date_desc Date_parse) (instant Date_parse) l.
Proof.
  intros Hd x y Hx Hy. unfold dated in Hd. rewrite Forall_forall in Hd.
  destruct (Hd x Hx) as [tx Htx], (Hd y Hy) as [ty Hty].
  unfold by_date_desc, instant. by rewrite Htx, Hty.
Qed.

Lemma dated_filteredData Date_parse data0 f :
  dated Date_parse data0 → dated Date_parse (filteredData data0 f).
Proof.
  unfold dated, filteredData. rewrite !Forall_forall.
  intros Hd x [_ Hx]%list_elem_of_filter. by apply Hd.
Qed.

Lemma StronglySorted_adjacent {A} (R : relation A) l i a b :
  StronglySorted R l → l !! i = Some a → l !! S i = Some b → R a b.
Proof.
  intros Hs. revert i. induction Hs as [|x l Hs IH Hx]; intros i Ha Hb; [done|].
  destruct i as [|i]; simpl in *.
  - injection Ha as ->. rewrite Forall_forall in Hx.
    apply Hx. eapply list_elem_of_lookup_2. exact Hb.
  - eapply IH; eassumption.
Qed.

(** A sorted record of dated entries stays one. *)
Lemma saveAsJson_keeps_order Date_parse now data0 f :
  dated Date_parse (prior f) →
  StronglySorted (key_desc (instant Date_parse)) (prior f) →
  dated Date_parse data0 →
  dated Date_parse (saveAsJson Date_parse now data0 f).1.1
  ∧ StronglySorted (key_desc (instant Date_parse))
      (saveAsJson Date_parse now data0 f).1.1.
Proof.
  intros Hp Hs Hd.
  assert (dated Date_parse (prior f ++ filteredData data0 f)) as Hall.
  { apply Forall_app. split; [done|by apply dated_filteredData]. }
  split.
  - unfold dated. by rewrite saveAsJson_perm.
  - destruct (decide (short_circuit data0 f)) as [Hsc|Hsc].
    + by rewrite saveAsJson_short_circuit.
    + rewrite saveAsJson_sort by done. simpl.
      by apply Array_sort_sorted, dated_orders.
Qed.

Lemma persisted_ordered Date_parse f :
  persisted Date_parse f →
  dated Date_parse (prior f)
  ∧ StronglySorted (key_desc (instant Date_parse)) (prior f).
Proof.
  induction 1 as [|now data0 f Hf [IHd IHs] Hd].
  - split; constructor.
  - rewrite prior_saveAsJson. by apply saveAsJson_keeps_order.
Qed.

Lemma filter_nil_intro {A} (P : A → Prop) `{∀ x, Decision (P x)} (l : list A) :
  (∀ x, x ∈ l → ¬ P x) → filter P l = [].
Proof.
  induction l as [|x l IH]; intros Hl; [done|].
  rewrite filter_cons, decide_False by (apply Hl; left).
  apply IH. intros y Hy. apply Hl. by right.
Qed.

(** Whatever the first run starts from, its batch is known to the next. *)
Lemma second_delta_empty Date_parse now data0 f :
  well_typed data0 →
  filteredData data0 (saveAsJson Date_parse now data0 f).1.2 = [].
Proof.
  intros Ht. unfold filteredData at 1. apply filter_nil_intro.
  intros x Hx Hnew. unfold well_typed in Ht. rewrite Forall_forall in Ht.
  assert (∀ y, y ∈ prior f ++ filteredData data0 f →
               y ∈ prior (saveAsJson Date_parse now data0 f).1.2) as Hin.
  { intros y Hy. by rewrite prior_saveAsJson, saveAsJson_perm. }
  destruct (decide (is_new (extractExistingFromJson f).1 x)) as [Hfirst|Hfirst].
  - (* kept by the first run, hence written *)
    assert (x ∈ prior (saveAsJson Date_parse now data0 f).1.2) as Hx'.
    { apply Hin, elem_of_app. right. by apply list_elem_of_filter. }
    unfold is_new in Hnew. destruct (Ht x Hx) as [Hc|Hm].
    + rewrite decide_True in Hnew by done.
      apply Hnew, existing_shas. by exists x.
    + rewrite decide_False in Hnew by (rewrite Hm; discriminate).
      rewrite decide_True in Hnew by done.
      apply Hnew, existing_mrs. by exists x.
  - (* known before the first run *)
    unfold is_new in Hnew, Hfirst. destruct (Ht x Hx) as [Hc|Hm].
    + rewrite decide_True in Hnew, Hfirst by done.
      apply dec_stable in Hfirst.
      apply existing_shas in Hfirst as (y & Hy & Hty & Hsy).
      apply Hnew, existing_shas. exists y. split; [|done].
      apply Hin, elem_of_app. by left.
    + rewrite decide_False in Hnew, Hfirst by (rewrite Hm; discriminate).
      rewrite decide_True in Hnew, Hfirst by done.
      apply dec_stable in Hfirst.
      apply existing_mrs in Hfirst as (y & Hy & Hty & Hky).
      apply Hnew, existing_mrs. exists y. split; [|done].
      apply Hin, elem_of_app. by left.
Qed.

Lemma filter_filter_sublist {A} (P Q : A → Prop)
    `{∀ x, Decision (P x)} `{∀ x, Decision (Q x)} (l : list A) :
  filter P (filter Q l) `sublist_of` filter P l.
Proof.
  induction l as [|x l IH]; [done|].
  rewrite !(filter_cons _ x).
  destruct (decide (Q x)), (decide (P x)); rewrite ?filter_cons;
    try rewrite decide_True by done; try rewrite decide_False by done;
    auto using sublist_skip, sublist_cons.
Qed.

Lemma mrKey_of_pair x y :
  (source x, target x) = (source y, target y) → mrKey x = mrKey y.
Proof. unfold mrKey. by intros [= -> ->]. Qed.

(** C1, as amended: when neither the prior record nor the new batch holds
    two Commit entries of one sha or two Merge Request entries of one
    source and target, the record [saveAsJson] returns holds none either:
    the entries a run adds collide with none of the prior record. *)
Theorem saveAsJson_deduplicated Date_parse now data0 f :
  deduplicated (prior f) → deduplicated data0 →
  deduplicated (saveAsJson Date_parse now data0 f).1.1.
Proof.
  intros [Hps Hpm] [Hbs Hbm]. unfold deduplicated, commit_shas, mr_pairs.
  rewrite !saveAsJson_perm, !filter_app, !fmap_app, !NoDup_app.
  unfold filteredData. repeat split; try done.
  - intros v Hv Hv'.
    apply list_elem_of_fmap in Hv as (y & -> & [Hty Hy]%list_elem_of_filter).
    apply list_elem_of_fmap in Hv' as (x & Hxy & [Htx Hx]%list_elem_of_filter).
    apply list_elem_of_filter in Hx as [Hnew Hx].
    unfold is_new in Hnew. rewrite decide_True in Hnew by done.
    apply Hnew, existing_shas. by exists y.
  - eapply sublist_NoDup; [exact Hbs|].
    apply fmap_sublist, filter_filter_sublist.
  - intros v Hv Hv'.
    apply list_elem_of_fmap in Hv as (y & -> & [Hty Hy]%list_elem_of_filter).
    apply list_elem_of_fmap in Hv' as (x & Hxy & [Htx Hx]%list_elem_of_filter).
    apply list_elem_of_filter in Hx as [Hnew Hx].
    unfold is_type in *. unfold is_new in Hnew.
    rewrite decide_False in Hnew by (rewrite Htx; discriminate).
    rewrite decide_True in Hnew by done.
    apply Hnew, existing_mrs. exists y. by split; [|split; [|apply mrKey_of_pair]].
  - eapply sublist_NoDup; [exact Hbm|].
    apply fmap_sublist, filter_filter_sublist.
Qed.

Ltac by_evaluation := apply (bool_decide_unpack _); vm_compute; exact I.

Lemma saveAsJson_deduplicated_witness :
  deduplicated (prior Sample.record_a1)
  ∧ deduplicated [Sample.a1; Sample.b2]
  ∧ deduplicated
      (saveAsJson Host.Date_parse Sample.clock [Sample.a1; Sample.b2]
         Sample.record_a1).1.1.
Proof.
  assert (deduplicated (prior Sample.record_a1)) as Hp by by_evaluation.
  assert (deduplicated [Sample.a1; Sample.b2]) as Hb by by_evaluation.
  split; [exact Hp|]. split; [exact Hb|].
  exact (saveAsJson_deduplicated Host.Date_parse Sample.clock
           [Sample.a1; Sample.b2] Sample.record_a1 Hp Hb).
Defined.

(** C1, as stated, fails: with no record on disk, a batch listing two
    merge requests of one project from [develop] into [main] is written as
    it is, both entries included. *)
Lemma saveAsJson_keeps_duplicates_of_the_batch :
  ¬ deduplicated
      (saveAsJson Host.Date_parse Sample.clock
         [Sample.release2; Sample.release1] Missing).1.1.
Proof. apply (bool_decide_eq_false_1 _). vm_compute. reflexivity. Qed.

(** C4: a second run over the same batch, started from what the first run
    left on disk, finds nothing new and returns the record of the first
    run. *)
Theorem saveAsJson_idempotent Date_parse now now' data0 f :
  well_typed data0 →
  let first := saveAsJson Date_parse now data0 f in
  let second := saveAsJson Date_parse now' data0 first.1.2 in
  filteredData data0 first.1.2 = [] ∧ second.1.1 = first.1.1.
Proof.
  intros Ht first second. subst first second.
  pose proof (second_delta_empty Date_parse now data0 f Ht) as Hd.
  split; [exact Hd|].
  rewrite <- (prior_saveAsJson Date_parse now data0 f).
  set (f1 := (saveAsJson Date_parse now data0 f).1.2) in *.
  destruct (decide (short_circuit data0 f1)) as [Hs|Hs].
  - by rewrite saveAsJson_short_circuit.
  - rewrite saveAsJson_sort by done. simpl. rewrite Hd, app_nil_r.
    destruct (prior f1) as [|x l] eqn:Hp; [done|].
    destruct Hs. split; [done|]. by rewrite Hp.
Qed.

Lemma saveAsJson_idempotent_witness :
  well_typed [Sample.a1; Sample.b2; Sample.release1]
  ∧ let first :=
      saveAsJson Host.Date_parse Sample.clock
        [Sample.a1; Sample.b2; Sample.release1] Sample.record_a1 in
    filteredData [Sample.a1; Sample.b2; Sample.release1] first.1.2 = []
    ∧ (saveAsJson Host.Date_parse Sample.clock
         [Sample.a1; Sample.b2; Sample.release1] first.1.2).1.1
      = first.1.1.
Proof.
  assert (well_typed [Sample.a1; Sample.b2; Sample.release1]) as Ht
    by by_evaluation.
  split; [exact Ht|].
  exact (saveAsJson_idempotent Host.Date_parse Sample.clock Sample.clock
           [Sample.a1; Sample.b2; Sample.release1] Sample.record_a1 Ht).
Defined.

(** C5: started from a record the script left (or from none) and given a
    batch of dated activities, [saveAsJson] returns a record in which every
    entry is dated no earlier than the entry after it, and in which the
    entries of any one instant are those of the prior record, in their
    order, followed by the new ones, in theirs. *)
Theorem saveAsJson_sorted_stable Date_parse now data0 f :
  persisted Date_parse f →
  dated Date_parse data0 →
  let fullRecord := (saveAsJson Date_parse now data0 f).1.1 in
  (∀ i a b, fullRecord !! i = Some a → fullRecord !! S i = Some b →
     ∃ ta tb, Date_parse (date a) = Some ta
              ∧ Date_parse (date b) = Some tb ∧ tb ≤ ta)
  ∧ (∀ t, filter (λ x, Date_parse (date x) = Some t) fullRecord
          = filter (λ x, Date_parse (date x) = Some t) (prior f)
            ++ filter (λ x, Date_parse (date x) = Some t)
                 (filteredData data0 f)).
Proof.
  intros Hf Hd fullRecord.
  destruct (persisted_ordered Date_parse f Hf) as [Hpd Hps].
  destruct (saveAsJson_keeps_order Date_parse now data0 f Hpd Hps Hd)
    as [Hfd Hfs].
  fold fullRecord in Hfd, Hfs. split.
  - intros i a b Ha Hb.
    pose proof (StronglySorted_adjacent _ _ _ _ _ Hfs Ha Hb) as Hab.
    unfold dated in Hfd. rewrite Forall_forall in Hfd.
    destruct (Hfd a (list_elem_of_lookup_2 _ _ _ Ha)) as [ta Hta].
    destruct (Hfd b (list_elem_of_lookup_2 _ _ _ Hb)) as [tb Htb].
    exists ta, tb. repeat split; try done.
    unfold key_desc, instant in Hab. by rewrite Hta, Htb in Hab.
  - intros t. subst fullRecord.
    destruct (decide (short_circuit data0 f)) as [Hs|Hs].
    + rewrite saveAsJson_short_circuit by done. simpl.
      destruct Hs as [-> _]. by rewrite filter_nil, app_nil_r.
    + rewrite saveAsJson_sort by done. simpl. rewrite <- filter_app.
      apply (Array_sort_stable _ (instant Date_parse)).
      * intros x y Hx Hy. unfold instant. by rewrite Hx, Hy.
      * apply dated_orders, Forall_app.
        split; [done|by apply dated_filteredData].
Qed.

Lemma saveAsJson_sorted_stable_witness :
  let f := (saveAsJson Host.Date_parse Sample.clock [Sample.a1] Missing).1.2 in
  let fullRecord :=
    (saveAsJson Host.Date_parse Sample.clock [Sample.a1; Sample.b2] f).1.1 in
  persisted Host.Date_parse f
  ∧ dated Host.Date_parse [Sample.a1; Sample.b2]
  ∧ fullRecord = [Sample.b2; Sample.a1]
  ∧ ∀ i a b, fullRecord !! i = Some a → fullRecord !! S i = Some b →
      ∃ ta tb, Host.Date_parse (date a) = Some ta
               ∧ Host.Date_parse (date b) = Some tb ∧ tb ≤ ta.
Proof.
  intros f fullRecord.
  assert (dated Host.Date_parse [Sample.a1]) as Ha by by_evaluation.
  assert (dated Host.Date_parse [Sample.a1; Sample.b2]) as Hb by by_evaluation.
  pose proof (persisted_run Host.Date_parse Sample.clock [Sample.a1] Missing
                (persisted_none _) Ha) as Hp.
  split; [exact Hp|]. split; [exact Hb|].
  split; [vm_compute; reflexivity|].
  exact (proj1 (saveAsJson_sorted_stable Host.Date_parse Sample.clock
                  [Sample.a1; Sample.b2] f Hp Hb)).
Defined.

(** C6: when the batch holds nothing new and the prior record is not
    empty, [saveAsJson] returns the prior record as it is and leaves the
    file as it found it. *)
Theorem saveAsJson_nothing_new Date_parse now data0 f :
  filteredData data0 f = [] →
  prior f ≠ [] →
  (saveAsJson Date_parse now data0 f).1.1 = prior f
  ∧ (saveAsJson Date_parse now data0 f).1.2 = f.
Proof.
  intros Hd Hp. by rewrite saveAsJson_short_circuit.
Qed.

Lemma saveAsJson_nothing_new_witness :
  filteredData [Sample.a1] Sample.record_a1 = []
  ∧ prior Sample.record_a1 ≠ []
  ∧ (saveAsJson Host.Date_parse Sample.clock [Sample.a1] Sample.record_a1).1.1
    = prior Sample.record_a1
  ∧ (saveAsJson Host.Date_parse Sample.clock [Sample.a1] Sample.record_a1).1.2
    = Sample.record_a1.
Proof.
  assert (filteredData [Sample.a1] Sample.record_a1 = []) as Hd.
  { vm_compute. reflexivity. }
  assert (prior Sample.record_a1 ≠ []) as Hp.
  { vm_compute. discriminate. }
  split; [exact Hd|]. split; [exact Hp|].
  exact (saveAsJson_nothing_new Host.Date_parse Sample.clock [Sample.a1]
           Sample.record_a1 Hd Hp).
Defined.

(** *** The file as it may be found *)

Lemma commit_shas_cons x l :
  commit_shas (x :: l)
  = if decide (type x = Commit_type) then sha x :: commit_shas l
    else commit_shas l.
Proof.
  unfold commit_shas. rewrite filter_cons. unfold is_type at 1.
  by case_decide.
Qed.

Lemma mr_keys_cons x l :
  mrKey <$> filter (is_type MergeRequest_type) (x :: l)
  = if decide (type x = MergeRequest_type)
    then mrKey x :: (mrKey <$> filter (is_type MergeRequest_type) l)
    else mrKey <$> filter (is_type MergeRequest_type) l.
Proof. rewrite filter_cons. unfold is_type at 1. by case_decide. Qed.

(** What the loop of the reader leaves: the identities of the objects that
    stand before the first [null], and the data as assigned. *)
Lemma Raw_forEach_identities existing entries :
  Raw.data (Raw.forEach existing entries).1 = Raw.data existing
  ∧ Raw.shas (Raw.forEach existing entries).1
    = list_to_set (commit_shas (Raw.before_null entries)) ∪ Raw.shas existing
  ∧ Raw.mrs (Raw.forEach existing entries).1
    = list_to_set (mrKey <$> filter (is_type MergeRequest_type)
                                (Raw.before_null entries))
      ∪ Raw.mrs existing
  ∧ (Raw.forEach existing entries).2 = bool_decide (None ∈ entries).
Proof.
  revert existing.
  induction entries as [|[item|] rest IH]; intros existing.
  - simpl. rewrite !(left_id_L ∅ (∪)). by split_and!.
  - cbn [Raw.forEach Raw.before_null].
    destruct (IH (Raw.record_identity existing item)) as (Hd & Hs & Hm & Ht).
    rewrite Hd, Hs, Hm, Ht, commit_shas_cons, mr_keys_cons.
    assert (bool_decide (None ∈ rest) = bool_decide (None ∈ Some item :: rest))
      as ->.
    { apply bool_decide_ext. rewrite elem_of_cons.
      split; [by right|]. by intros [?|?]. }
    unfold Raw.record_identity.
    destruct (decide (type item = Commit_type)) as [Hc|Hc].
    + rewrite decide_False by (rewrite Hc; discriminate). simpl.
      split_and!; try done.
      by rewrite (assoc_L (∪)), (comm_L (∪) _ {[ sha item ]}).
    + destruct (decide (type item = MergeRequest_type)) as [Hmr|Hmr]; simpl.
      * split_and!; try done.
        by rewrite (assoc_L (∪)), (comm_L (∪) _ {[ mrKey item ]}).
      * done.
  - simpl. rewrite !(left_id_L ∅ (∪)). by split_and!.
Qed.

Lemma Raw_record_identity_as_read existing item :
  Raw.record_identity (as_read existing) item
  = as_read (record_identity existing item).
Proof.
  unfold Raw.record_identity, record_identity, as_read.
  by repeat case_decide.
Qed.

Lemma Raw_forEach_objects existing l :
  Raw.forEach (as_read existing) (Some <$> l)
  = (as_read (foldl record_identity existing l), false).
Proof.
  revert existing. induction l as [|x l IH]; intros existing; [done|].
  rewrite fmap_cons. cbn [Raw.forEach foldl].
  by rewrite Raw_record_identity_as_read, IH.
Qed.

Lemma Raw_objects_fmap (l : list Activity) : Raw.objects (Some <$> l) = Some l.
Proof. induction l as [|x l IH]; [done|]. rewrite fmap_cons. simpl. by rewrite IH. Qed.

(** On a file of the record format, the reader of the file as found is
    the reader of the record. *)
Lemma Raw_extractExistingFromJson_as_found f :
  Raw.extractExistingFromJson (as_found f)
  = (as_read (extractExistingFromJson f).1, (extractExistingFromJson f).2).
Proof.
  destruct f as [| |[| | |o]]; try reflexivity.
  cbn [as_found Raw.extractExistingFromJson extractExistingFromJson
       read_existing].
  change {| Raw.shas := ∅; Raw.mrs := ∅;
            Raw.data := Raw.Arr (Some <$> activities o) |}
    with (as_read {| shas := ∅; mrs := ∅; data := activities o |}).
  by rewrite Raw_forEach_objects.
Qed.

Lemma Raw_is_new_as_read existing (data0 : list Activity) :
  filter (Raw.is_new (as_read existing)) data0 = filter (is_new existing) data0.
Proof. by apply list_filter_iff. Qed.

(** So is [saveAsJson]: on a file of the record format it returns, and
    what it returns, writes and says is what the model of the record
    gives. *)
Lemma Raw_saveAsJson_as_found Date_parse now data0 f :
  Raw.saveAsJson Date_parse now data0 (as_found f)
  = let '(allData, f', console) := saveAsJson Date_parse now data0 f in
    Raw.Returns (Raw.Arr (Some <$> allData)) (as_found f') console.
Proof.
  unfold Raw.saveAsJson, saveAsJson.
  rewrite Raw_extractExistingFromJson_as_found.
  destruct (extractExistingFromJson f) as [existing warnings].
  cbn [fst snd]. rewrite Raw_is_new_as_read.
  cbn [as_read Raw.data Raw.positive_length Raw.spread]. rewrite length_fmap.
  destruct ((length (filter (is_new existing) data0) =? 0)%nat
            && bool_decide (0 < length (data existing))%nat); [done|].
  unfold Raw.sort.
  rewrite <- fmap_app, Raw_objects_fmap, Raw_objects_fmap.
  cbn [as_found activities generated_at total_activities summary_commits
       summary_merge_requests].
  by rewrite length_fmap.
Qed.

Lemma Raw_is_new_no_existing (data0 : list Activity) :
  filter (Raw.is_new Raw.no_existing) data0 = data0.
Proof.
  induction data0 as [|x l IH]; [done|].
  rewrite filter_cons, IH, decide_True; [done|].
  unfold Raw.is_new. simpl. repeat case_decide; try done; apply not_elem_of_empty.
Qed.

(** From an empty reading the run goes on: it returns and writes the
    batch, in some order. *)
Lemma Raw_saveAsJson_from_nothing Date_parse now data0 f console :
  Raw.extractExistingFromJson f = (Raw.no_existing, console) →
  ∃ items stamp,
    Raw.saveAsJson Date_parse now data0 f
    = Raw.Returns (Raw.Arr (Some <$> items))
        (Raw.Text (Raw.Object (Raw.Truthy (Raw.Arr (Some <$> items)))
                     (Some stamp)))
        (console ++ [Log_updated_json (length data0)])
    ∧ items ≡ₚ data0.
Proof.
  intros Hread. unfold Raw.saveAsJson. rewrite Hread.
  rewrite Raw_is_new_no_existing.
  cbn [Raw.no_existing Raw.data Raw.positive_length Raw.spread length].
  rewrite bool_decide_eq_false_2 by lia. rewrite andb_false_r.
  unfold Raw.sort. cbn [app].
  rewrite Raw_objects_fmap, Raw_objects_fmap.
  eexists _, _. split; [reflexivity|]. apply Array_sort_perm.
Qed.

(** C8: what holds of the claim, and where the code leaves it.  With no
    file the reader returns empty sets and no data and says nothing; when
    [readFileSync] or [JSON.parse] throws, or the text is [null], it warns
    and returns the same, and so it does, without a warning, when there is
    no member [activities]; from each of these [saveAsJson] goes on to
    write the batch.  But [existing.data] is assigned before the loop
    over the entries: a value that is not an array is returned as the
    data, next to the warning, and so is an array that holds [null],
    together with the identities of the entries before the [null] and of
    none after it.  [saveAsJson] then throws, and nothing catches it: in
    the sort for the torn record, at the spread for the number. *)
Theorem extractExistingFromJson_leaves_data_on_a_throw :
  Raw.extractExistingFromJson Raw.Missing = (Raw.no_existing, [])
  ∧ Raw.extractExistingFromJson Raw.Unreadable
    = (Raw.no_existing, [Warn_could_not_parse_json IOError])
  ∧ Raw.extractExistingFromJson (Raw.Text Raw.ParseFails)
    = (Raw.no_existing, [Warn_could_not_parse_json SyntaxError])
  ∧ Raw.extractExistingFromJson (Raw.Text Raw.Null)
    = (Raw.no_existing, [Warn_could_not_parse_json TypeError])
  ∧ (∀ stamp,
       Raw.extractExistingFromJson (Raw.Text (Raw.Object Raw.Falsy stamp))
       = (Raw.no_existing, []))
  ∧ (∀ Date_parse now data0 stamp,
       Forall (λ f, ∃ items f' console,
                 Raw.saveAsJson Date_parse now data0 f
                 = Raw.Returns (Raw.Arr (Some <$> items)) f' console
                 ∧ items ≡ₚ data0)
         [Raw.Missing; Raw.Unreadable; Raw.Text Raw.ParseFails;
          Raw.Text Raw.Null; Raw.Text (Raw.Object Raw.Falsy stamp)])
  ∧ Raw.extractExistingFromJson Sample.five
    = ({| Raw.shas := ∅; Raw.mrs := ∅; Raw.data := Raw.Scalar |},
       [Warn_could_not_parse_json TypeError])
  ∧ Raw.extractExistingFromJson Sample.torn
    = ({| Raw.shas := {[ sha Sample.a1 ]};
          Raw.mrs := ∅;
          Raw.data := Raw.Arr [Some Sample.a1; None; Some Sample.b2] |},
       [Warn_could_not_parse_json TypeError])
  ∧ Raw.saveAsJson Host.Date_parse Sample.clock [Sample.a1; Sample.b2]
      Sample.torn
    = Raw.Throws TypeError [Warn_could_not_parse_json TypeError]
  ∧ Raw.saveAsJson Host.Date_parse Sample.clock [] Sample.five
    = Raw.Throws TypeError [Warn_could_not_parse_json TypeError].
Proof.
  split_and!; try reflexivity; try (vm_compute; reflexivity).
  intros Date_parse now data0 stamp.
  repeat apply Forall_cons_2; [..|apply Forall_nil_2]; cbv beta;
    match goal with
    | |- ∃ _ _ _, Raw.saveAsJson _ _ _ ?f = _ ∧ _ =>
        edestruct (Raw_saveAsJson_from_nothing Date_parse now data0 f)
          as (items & st & Heq & Hperm);
        [reflexivity|eexists _, _, _; split; [exact Heq|exact Hperm]]
    end.
Qed.

(** C10: an item of the batch whose type is neither ["Commit"] nor
    ["Merge Request"] is always kept by the filter, whatever the prior
    record holds; the run then writes the file, with the item in it, next
    to all the prior entries. *)
Theorem saveAsJson_keeps_other_types Date_parse now data0 f item :
  item ∈ data0 →
  type item ≠ Commit_type →
  type item ≠ MergeRequest_type →
  let '(allData, f', _) := saveAsJson Date_parse now data0 f in
  item ∈ filteredData data0 f
  ∧ item ∈ allData
  ∧ f' = written now allData
  ∧ allData ≡ₚ prior f ++ filteredData data0 f.
Proof.
  intros Hin Hc Hm.
  assert (item ∈ filteredData data0 f) as Hkept.
  { apply list_elem_of_filter. split; [|done].
    unfold is_new. by rewrite !decide_False. }
  assert (¬ short_circuit data0 f) as Hs.
  { intros [Hnil _]. rewrite Hnil in Hkept. by apply elem_of_nil in Hkept. }
  pose proof (saveAsJson_perm Date_parse now data0 f) as Hperm.
  rewrite saveAsJson_sort in * by done. simpl in *.
  repeat split; try done.
  rewrite Hperm. apply elem_of_app. by right.
Qed.

Lemma saveAsJson_keeps_other_types_witness :
  Sample.note ∈ [Sample.note]
  ∧ Sample.note
    ∈ (saveAsJson Host.Date_parse Sample.clock [Sample.note]
         (saveAsJson Host.Date_parse Sample.clock [Sample.note]
            Sample.record_a1).1.2).1.1.
Proof.
  assert (Sample.note ∈ [Sample.note]) as Hin by left.
  split; [exact Hin|].
  pose proof (saveAsJson_keeps_other_types Host.Date_parse Sample.clock
                [Sample.note]
                (saveAsJson Host.Date_parse Sample.clock [Sample.note]
                   Sample.record_a1).1.2
                Sample.note Hin ltac:(discriminate) ltac:(discriminate)) as H.
  destruct (saveAsJson Host.Date_parse Sample.clock [Sample.note]
              (saveAsJson Host.Date_parse Sample.clock [Sample.note]
                 Sample.record_a1).1.2) as [[allData f'] l].
  exact (proj1 (proj2 H)).
Defined.

(** ** Collection *)

Lemma extends_refl Q st : extends Q st st.
Proof.
  exists []. rewrite app_nil_r. repeat split; [done|].
  intros a Ha. by apply elem_of_nil in Ha.
Qed.

Lemma extends_trans Q st1 st2 st3 :
  extends Q st1 st2 → extends Q st2 st3 → extends Q st1 st3.
Proof.
  intros (n1 & H1 & S1 & Q1) (n2 & H2 & S2 & Q2). exists (n1 ++ n2).
  split; [by rewrite H2, H1, app_assoc|]. split; [by etrans|].
  intros a [?|?]%elem_of_app; auto.
Qed.

Lemma extends_warn Q l st st' : extends Q st st' → extends Q st (warn l st').
Proof. done. Qed.

Lemma coherent_warn l st : coherent st → coherent (warn l st).
Proof. done. Qed.

Section CollectFacts.
Variable remote : Remote.
Variables (projectId : Z) (userEmail : jsstring).

Section Visit.
Variable mk : ApiCommit.t → Activity.
Hypothesis sha_mk : ∀ c, sha (mk c) = JStr (ApiCommit.id c).

Lemma visit_coherent st c : coherent st → coherent (visit userEmail mk st c).
Proof.
  intros [Hnd Hseen]. unfold visit. case_decide as Hc; [|done].
  destruct Hc as [_ Hfresh]. unfold coherent. simpl.
  rewrite fmap_app. simpl. rewrite sha_mk. split.
  - apply NoDup_app. split; [done|]. split; [|apply NoDup_singleton].
    intros v Hv ->%list_elem_of_singleton. by apply Hfresh, Hseen.
  - intros id'. rewrite elem_of_union, elem_of_singleton, elem_of_app,
      list_elem_of_singleton, Hseen.
    split; [intros [->|H]; [by right|by left]|].
    intros [H|[= ->]]; [by right|by left].
Qed.

Lemma foldl_visit_coherent st commits :
  coherent st → coherent (foldl (visit userEmail mk) st commits).
Proof.
  revert st. induction commits as [|c l IH]; intros st Hst; [done|].
  simpl. by apply IH, visit_coherent.
Qed.

(** What one inner loop pushes, and what it has seen at the end. *)
Lemma foldl_visit_extends st commits :
  extends (λ a, ∃ c, c ∈ commits
                     ∧ ApiCommit.author_email c = userEmail
                     ∧ (ApiCommit.id c ∉ seenCommits st)
                     ∧ a = mk c)
    st (foldl (visit userEmail mk) st commits)
  ∧ ∀ c, c ∈ commits → ApiCommit.author_email c = userEmail →
         ApiCommit.id c ∈ seenCommits (foldl (visit userEmail mk) st commits).
Proof.
  revert st. induction commits as [|c l IH]; intros st; simpl.
  - split; [apply extends_refl|]. intros c Hc. by apply elem_of_nil in Hc.
  - destruct (IH (visit userEmail mk st c)) as [(new & Hall & Hsub & Hnew) Hids].
    assert (seenCommits st ⊆ seenCommits (visit userEmail mk st c)) as Hmono.
    { unfold visit. case_decide; [simpl; apply union_subseteq_r|done]. }
    split.
    + unfold visit in *. case_decide as Hc.
      * simpl in *. exists (mk c :: new).
        split; [by rewrite Hall, <- app_assoc|].
        split; [etrans; [apply union_subseteq_r|exact Hsub]|].
        intros a [->|Ha]%elem_of_cons.
        -- exists c. destruct Hc. repeat split; try done. left.
        -- destruct (Hnew a Ha) as (c' & Hc' & Hau & Hfresh & ->).
           exists c'. repeat split; try done; [by right|].
           intros ?. apply Hfresh, elem_of_union. by right.
      * exists new. split; [done|]. split; [done|].
        intros a Ha. destruct (Hnew a Ha) as (c' & Hc' & Hau & Hfresh & ->).
        exists c'. repeat split; try done. by right.
    + intros c' [Heq|Hc']%elem_of_cons Hau; [subst c'|by apply Hids].
      apply Hsub. unfold visit. case_decide as Hc; simpl.
      * by apply elem_of_union_l, elem_of_singleton.
      * destruct (decide (ApiCommit.id c ∈ seenCommits st)); [done|].
        destruct Hc. by split.
Qed.
End Visit.

Lemma sha_mr_commit_activity mr c :
  sha (mr_commit_activity mr c) = JStr (ApiCommit.id c).
Proof. done. Qed.

Lemma sha_branch_commit_activity b c :
  sha (branch_commit_activity b c) = JStr (ApiCommit.id c).
Proof. done. Qed.

(** *** The loop over the merge requests *)

Lemma visit_mr_coherent st mr :
  coherent st → coherent (visit_mr remote projectId userEmail st mr).
Proof.
  intros Hst. unfold visit_mr.
  destruct (mr_commits_of remote projectId (MR.iid mr)); [|done].
  by apply foldl_visit_coherent.
Qed.

Lemma foldl_visit_mr_coherent st mrs0 :
  coherent st → coherent (foldl (visit_mr remote projectId userEmail) st mrs0).
Proof.
  revert st. induction mrs0 as [|mr l IH]; intros st Hst; [done|].
  simpl. by apply IH, visit_mr_coherent.
Qed.

Lemma visit_mr_extends mergeRequests st mr :
  mr ∈ mergeRequests →
  extends (from_mr remote projectId userEmail mergeRequests)
    st (visit_mr remote projectId userEmail st mr)
  ∧ ∀ commits c,
      mr_commits_of remote projectId (MR.iid mr) = Some commits →
      c ∈ commits → ApiCommit.author_email c = userEmail →
      ApiCommit.id c ∈ seenCommits (visit_mr remote projectId userEmail st mr).
Proof.
  intros Hmr. unfold visit_mr.
  destruct (mr_commits_of remote projectId (MR.iid mr)) as [commits|] eqn:Hans.
  - destruct (foldl_visit_extends (mr_commit_activity mr) st commits)
      as [(new & Hall & Hsub & Hnew) Hids].
    split.
    + exists new. repeat split; try done.
      intros a Ha. destruct (Hnew a Ha) as (c & Hc & Hau & _ & ->).
      exists mr, c. split; [|done]. split; [done|]. by exists commits.
    + intros commits' c [= <-]. apply Hids.
  - split; [apply extends_warn, extends_refl|]. by intros commits c.
Qed.

Lemma foldl_visit_mr_extends mergeRequests st mrs0 :
  mrs0 ⊆ mergeRequests →
  extends (from_mr remote projectId userEmail mergeRequests)
    st (foldl (visit_mr remote projectId userEmail) st mrs0)
  ∧ ∀ mr commits c,
      mr ∈ mrs0 →
      mr_commits_of remote projectId (MR.iid mr) = Some commits →
      c ∈ commits → ApiCommit.author_email c = userEmail →
      ApiCommit.id c
      ∈ seenCommits (foldl (visit_mr remote projectId userEmail) st mrs0).
Proof.
  revert st. induction mrs0 as [|mr l IH]; intros st Hsub; simpl.
  - split; [apply extends_refl|]. intros mr ? ? Hmr. by apply elem_of_nil in Hmr.
  - assert (mr ∈ mergeRequests) as Hmr by (apply Hsub; left).
    assert (l ⊆ mergeRequests) as Hl by (intros x Hx; apply Hsub; by right).
    destruct (visit_mr_extends mergeRequests st mr Hmr) as [Hext Hids].
    destruct (IH (visit_mr remote projectId userEmail st mr) Hl)
      as [Hext' Hids'].
    split; [by eapply extends_trans|].
    intros mr' commits c [->|Hmr']%elem_of_cons Hans Hc Hau.
    + destruct Hext' as (_ & _ & Hmono & _). apply Hmono. by eapply Hids.
    + by eapply Hids'.
Qed.

(** *** The loop over the branches *)

Section Walk.
Variable branches : list jsstring.
Hypothesis listed : branches_of remote projectId = Some branches.
Variable st0 : Collect.

Lemma walk_branches_extends bs st :
  bs ⊆ branches →
  seenCommits st0 ⊆ seenCommits st →
  extends (walked remote projectId userEmail st0)
    st (walk_branches remote projectId userEmail bs st).1.
Proof.
  revert st. induction bs as [|b l IH]; intros st Hsub Hmono; simpl.
  - apply extends_refl.
  - destruct (branch_commits_of remote projectId b) as [commits|] eqn:Hans;
      [|apply extends_refl].
    destruct (foldl_visit_extends (branch_commit_activity b) st commits)
      as [(new & Hall & Hseen & Hnew) _].
    eapply extends_trans; [|apply IH].
    + exists new. repeat split; try done.
      intros a Ha. destruct (Hnew a Ha) as (c & Hc & Hau & Hfresh & ->).
      exists b, c. split; [|split; [|done]];
        [|intros ?; by apply Hfresh, Hmono].
      exists branches, commits. repeat split; try done. apply Hsub. left.
    + intros x Hx. apply Hsub. by right.
    + by etrans.
Qed.
End Walk.

Lemma walk_branches_coherent bs st :
  coherent st → coherent (walk_branches remote projectId userEmail bs st).1.
Proof.
  revert st. induction bs as [|b l IH]; intros st Hst; simpl; [done|].
  destruct (branch_commits_of remote projectId b); [|done].
  by apply IH, foldl_visit_coherent.
Qed.

Lemma walk_coherent st :
  coherent st → coherent (walk remote projectId userEmail st).
Proof.
  intros Hst. unfold walk. destruct (branches_of remote projectId); [|done].
  pose proof (walk_branches_coherent l st Hst) as H.
  destruct (walk_branches remote projectId userEmail l st) as [st' []]; done.
Qed.

Lemma walk_extends st :
  extends (λ a, from_walk remote projectId userEmail a
                ∧ ∃ id, sha a = JStr id ∧ id ∉ seenCommits st)
    st (walk remote projectId userEmail st).
Proof.
  unfold walk.
  destruct (branches_of remote projectId) as [branches|] eqn:Hb;
    [|apply extends_warn, extends_refl].
  pose proof (walk_branches_extends branches Hb st branches st
                (reflexivity _) (reflexivity _)) as (new & Hall & Hsub & Hnew).
  assert (extends (λ a, from_walk remote projectId userEmail a
                        ∧ ∃ id, sha a = JStr id ∧ id ∉ seenCommits st)
            st (walk_branches remote projectId userEmail branches st).1) as H.
  { exists new. repeat split; try done.
    - destruct (Hnew a H) as (b & c & Hon & _ & ->). by exists b, c.
    - destruct (Hnew a H) as (b & c & _ & Hfresh & ->).
      by exists (ApiCommit.id c). }
  destruct (walk_branches remote projectId userEmail branches st) as [st' []];
    [apply extends_warn|]; exact H.
Qed.



(** *** The whole function *)

Lemma start_coherent : coherent start.
Proof.
  split; [constructor|]. intros id. simpl. split.
  - by intros ?%not_elem_of_empty.
  - by intros ?%elem_of_nil.
Qed.

Lemma collect_commits_coherent mergeRequests :
  coherent (collect_commits remote projectId userEmail mergeRequests).
Proof.
  apply walk_coherent, foldl_visit_mr_coherent, start_coherent.
Qed.

(** Every activity returned comes from a merge request or from the walk;
    those of the walk have ids no merge request showed. *)
Lemma getCommitsWithCorrectBranch_provenance mergeRequests a :
  a ∈ getCommitsWithCorrectBranch remote projectId userEmail mergeRequests →
  from_mr remote projectId userEmail mergeRequests a
  ∨ (from_walk remote projectId userEmail a
     ∧ ∃ id, sha a = JStr id
             ∧ ∀ mr c, in_merge_request remote projectId userEmail
                         mergeRequests mr c →
                       ApiCommit.id c ≠ id).
Proof.
  unfold getCommitsWithCorrectBranch, collect_commits.
  destruct (foldl_visit_mr_extends mergeRequests start mergeRequests
              (reflexivity _)) as [(n1 & H1 & _ & Q1) Hids].
  destruct (walk_extends
              (foldl (visit_mr remote projectId userEmail) start mergeRequests))
    as (n2 & H2 & _ & Q2).
  rewrite H2, H1. simpl.
  intros [Ha|Ha]%elem_of_app; [left; by apply Q1|right].
  destruct (Q2 a Ha) as [Hw (id & Hsha & Hfresh)].
  split; [done|]. exists id. split; [done|].
  intros mr c [Hmr (commits & Hans & Hc & Hau)] <-.
  apply Hfresh. by eapply Hids.
Qed.

(** Every commit of the user a merge request shows is returned. *)
Lemma getCommitsWithCorrectBranch_covers mergeRequests mr c :
  in_merge_request remote projectId userEmail mergeRequests mr c →
  ∃ a, a ∈ getCommitsWithCorrectBranch remote projectId userEmail mergeRequests
       ∧ sha a = JStr (ApiCommit.id c).
Proof.
  intros [Hmr (commits & Hans & Hc & Hau)].
  unfold getCommitsWithCorrectBranch, collect_commits.
  destruct (foldl_visit_mr_extends mergeRequests start mergeRequests
              (reflexivity _)) as [_ Hids].
  pose proof (Hids mr commits c Hmr Hans Hc Hau) as Hseen.
  destruct (foldl_visit_mr_coherent start mergeRequests start_coherent)
    as [_ Hco].
  apply Hco, list_elem_of_fmap in Hseen as (a & Ha & Hin).
  destruct (walk_extends
              (foldl (visit_mr remote projectId userEmail) start mergeRequests))
    as (n2 & H2 & _ & _).
  exists a. split; [|done]. rewrite H2. apply elem_of_app. by left.
Qed.
End CollectFacts.

(** C3: a commit of the user that the answered commit list of some merge
    request shows is returned, and whatever is returned under its sha
    carries the attribution of a merge request that shows it: the source
    and the target of that merge request, [from_merge_request] set; it is
    never what the walk over the branches would have pushed. *)
Theorem merge_request_attribution_wins
    remote projectId userEmail mergeRequests mr c :
  in_merge_request remote projectId userEmail mergeRequests mr c →
  let emitted :=
    getCommitsWithCorrectBranch remote projectId userEmail mergeRequests in
  (∃ a, a ∈ emitted ∧ sha a = JStr (ApiCommit.id c))
  ∧ ∀ a, a ∈ emitted → sha a = JStr (ApiCommit.id c) →
      from_merge_request a = Some true
      ∧ (∀ branch_name c', a ≠ branch_commit_activity branch_name c')
      ∧ ∃ mr' c',
          in_merge_request remote projectId userEmail mergeRequests mr' c'
          ∧ ApiCommit.id c' = ApiCommit.id c
          ∧ branch a = JStr (MR.source mr')
          ∧ target_branch a = JStr (MR.target mr').
Proof.
  intros Hin emitted. split.
  { by eapply getCommitsWithCorrectBranch_covers. }
  intros a Ha Hsha.
  destruct (getCommitsWithCorrectBranch_provenance _ _ _ _ _ Ha)
    as [(mr' & c' & Hin' & ->)|[_ (id & Hid & Hfresh)]].
  - split; [done|]. split; [intros b c'' [=]|].
    exists mr', c'. split; [exact Hin'|].
    simpl in Hsha. injection Hsha as Hid. by rewrite Hid.
  - rewrite Hsha in Hid. injection Hid as <-. by destruct (Hfresh mr c Hin).
Qed.

Lemma merge_request_attribution_wins_witness :
  in_merge_request Sample.server 1 (ApiUser.email Sample.me)
    [Sample.feat_into_main_mr] Sample.feat_into_main_mr Sample.x1
  ∧ ∀ a, a ∈ getCommitsWithCorrectBranch Sample.server 1
               (ApiUser.email Sample.me) [Sample.feat_into_main_mr] →
         sha a = JStr (lit "x1") →
         from_merge_request a = Some true.
Proof.
  assert (in_merge_request Sample.server 1 (ApiUser.email Sample.me)
            [Sample.feat_into_main_mr] Sample.feat_into_main_mr Sample.x1)
    as Hin.
  { split; [left|]. exists [Sample.x1]. repeat split; [left]. }
  split; [exact Hin|].
  intros a Ha Hsha.
  exact (proj1 (proj2 (merge_request_attribution_wins Sample.server 1
                         (ApiUser.email Sample.me) [Sample.feat_into_main_mr]
                         Sample.feat_into_main_mr Sample.x1 Hin) a Ha Hsha)).
Defined.



Lemma getCommitsWithCorrectBranch_types remote projectId userEmail mergeRequests :
  Forall (is_type Commit_type)
    (getCommitsWithCorrectBranch remote projectId userEmail mergeRequests).
Proof.
  apply Forall_forall. intros a Ha.
  by destruct (getCommitsWithCorrectBranch_provenance _ _ _ _ _ Ha)
    as [(mr & c & _ & ->)|[(b & c & _ & ->) _]].
Qed.

Lemma filter_all {A} (P : A → Prop) `{∀ x, Decision (P x)} (l : list A) :
  Forall P l → filter P l = l.
Proof.
  induction 1 as [|x l Hx Hl IH]; [done|].
  by rewrite filter_cons, decide_True, IH.
Qed.

(** C9, as amended: among the activities collected for one project every
    commit sha occurs once at most, whichever merge request or branch
    showed the commit. *)
Theorem project_commits_unique remote user p :
  NoDup (sha <$> getCommitsWithCorrectBranch remote (ApiProject.id p)
                   (ApiUser.email user)
                   (default [] (getMergeRequests remote (ApiProject.id p)
                                  (ApiUser.id user))))
  ∧ NoDup (commit_shas (project_activities remote user p)).
Proof.
  set (mergeRequests := default [] (getMergeRequests remote (ApiProject.id p)
                                      (ApiUser.id user))).
  assert (NoDup (sha <$> getCommitsWithCorrectBranch remote (ApiProject.id p)
                           (ApiUser.email user) mergeRequests)) as Hnd.
  { apply collect_commits_coherent. }
  split; [exact Hnd|].
  unfold commit_shas, project_activities. fold mergeRequests.
  rewrite filter_app, fmap_app.
  rewrite (filter_nil_intro _ (mr_activity _ <$> mergeRequests)).
  - simpl. rewrite filter_all.
    + by rewrite <- list_fmap_compose.
    + apply Forall_fmap. eapply Forall_impl;
        [apply getCommitsWithCorrectBranch_types|done].
  - by intros a (mr & -> & _)%list_elem_of_fmap.
Qed.

(** C9, as stated, fails: the seen-set lives for one project, so a commit
    the user has in a project and in a fork of it is collected twice. *)
Lemma collect_all_repeats_a_sha :
  ¬ NoDup (commit_shas
             (collect_all Sample.server Sample.me [Sample.app; Sample.fork])).
Proof. apply (bool_decide_eq_false_1 _). vm_compute. reflexivity. Qed.

(** ** The day sections of the report *)

Section ReportFacts.
Variable dayLabel : jsval → jsstring.
Variable Date_parse : jsval → option Z.

(** When [new Date] reads every label, the sections come newest first. *)
Lemma day_sections_parsed ids data0 :
  (∀ e, e ∈ groupByDay dayLabel (filter (is_new ids) data0) →
        is_Some (Date_parse (JStr e.1))) →
  StronglySorted (key_desc (λ e, default 0 (Date_parse (JStr e.1))))
    (day_sections dayLabel Date_parse ids data0).
Proof.
  intros Hp. apply Array_sort_sorted. intros e1 e2 H1 H2.
  destruct (Hp e1 H1) as [t1 Ht1], (Hp e2 H2) as [t2 Ht2].
  unfold by_day_desc. by rewrite Ht1, Ht2.
Qed.

(** When it reads none, they stay in the order the days were first met. *)
Lemma day_sections_unparsed ids data0 :
  (∀ e, e ∈ groupByDay dayLabel (filter (is_new ids) data0) →
        Date_parse (JStr e.1) = None) →
  day_sections dayLabel Date_parse ids data0
  = groupByDay dayLabel (filter (is_new ids) data0).
Proof.
  intros Hp. apply Array_sort_all_NaN. intros e1 e2 H1 H2.
  unfold by_day_desc. by rewrite (Hp e2 H2).
Qed.
End ReportFacts.

(** C2: on the host of the script the claim fails.  The comparator hands
    [new Date] the formatted label, and the label of a day in May, in the
    locale the script selects, is no date to it: the comparison is [NaN],
    nothing moves, and a day of May met before a day of June stays above
    it.  Two days whose labels are both read, June and July, do come out
    newest first. *)
Theorem day_sections_follow_the_label :
  fst <$> day_sections Host.dayLabel Host.Date_parse no_existing
            [Sample.release1; Sample.hotfix]
  = [lit "Jumat, 10 Mei 2024"; lit "Senin, 10 Juni 2024"]
  ∧ Host.Date_parse (JStr (lit "Jumat, 10 Mei 2024")) = None
  ∧ is_Some (Host.Date_parse (date Sample.release1))
  ∧ instant Host.Date_parse Sample.release1
    < instant Host.Date_parse Sample.hotfix
  ∧ fst <$> day_sections Host.dayLabel Host.Date_parse no_existing
              [Sample.hotfix; Sample.retro]
    = [lit "Senin, 8 Juli 2024"; lit "Senin, 10 Juni 2024"].
Proof. repeat split; vm_compute; eauto. Qed.

(** * Further properties *)

(** ** Pagination *)

Section PagesFacts.
Context {A : Type}.
Variable get : nat → option (list A).

Lemma fetch_pages_filled k : ∀ requests page results,
  (∀ i, (i < k)%nat → filled get (page + i)) →
  (k ≤ requests)%nat →
  fetch_pages get requests page results
  = fetch_pages get (requests - k) (page + k)
      (results ++ concat ((λ p, default [] (get p)) <$> seq page k)).
Proof.
  induction k as [|k IH]; intros requests page results Hfilled Hk.
  - simpl. by rewrite Nat.sub_0_r, Nat.add_0_r, app_nil_r.
  - destruct requests as [|requests]; [lia|].
    destruct (Hfilled 0%nat ltac:(lia)) as (d & Hd & Hne).
    rewrite Nat.add_0_r in Hd. simpl. rewrite Hd. simpl.
    destruct d as [|x d]; [done|]. simpl.
    rewrite IH; [|intros i Hi|lia].
    + by rewrite Nat.add_succ_r, <- app_assoc.
    + specialize (Hfilled (S i) ltac:(lia)). by rewrite Nat.add_succ_r in Hfilled.
Qed.
End PagesFacts.

(** X1: when the pages 1 to n each come back with something and page n+1
    comes back empty, [fetchAllPages] returns the contents of the pages 1
    to n, in order, after n+1 requests. *)
Theorem fetchAllPages_returns {A} (get : nat → option (list A)) n requests :
  (∀ p, (1 ≤ p ≤ n)%nat → filled get p) →
  get (S n) = Some [] →
  (n < requests)%nat →
  fetchAllPages get requests = Returned (pages_upto get n).
Proof.
  intros Hfilled Hempty Hn. unfold fetchAllPages, pages_upto.
  rewrite (fetch_pages_filled get n) by
    (try lia; intros i Hi; apply Hfilled; lia).
  destruct (requests - n)%nat as [|r] eqn:Hr; [lia|].
  simpl. replace (1 + n)%nat with (S n) by lia. by rewrite Hempty.
Qed.

Lemma fetchAllPages_returns_witness :
  let get := λ p : nat, if (p <=? 2)%nat then Some [p; p] else Some [] in
  fetchAllPages get 3 = Returned [1; 1; 2; 2]%nat.
Proof.
  intros get.
  apply (fetchAllPages_returns get 2 3); [|reflexivity|lia].
  intros p Hp. exists [p; p]. split; [|done].
  unfold get. destruct (Nat.leb_spec p 2); [done|lia].
Defined.

(** X2: when a request throws before any page has come back empty,
    [fetchAllPages] throws: the pages already fetched are lost. *)
Theorem fetchAllPages_throws {A} (get : nat → option (list A)) n requests :
  (∀ p, (1 ≤ p ≤ n)%nat → filled get p) →
  get (S n) = None →
  (n < requests)%nat →
  fetchAllPages get requests = Thrown.
Proof.
  intros Hfilled Hthrow Hn. unfold fetchAllPages.
  rewrite (fetch_pages_filled get n) by
    (try lia; intros i Hi; apply Hfilled; lia).
  destruct (requests - n)%nat as [|r] eqn:Hr; [lia|].
  simpl. replace (1 + n)%nat with (S n) by lia. by rewrite Hthrow.
Qed.

Lemma fetchAllPages_throws_witness :
  let get := λ p : nat, if (p <=? 2)%nat then Some [p] else None in
  fetchAllPages get 5 = Thrown.
Proof.
  intros get.
  apply (fetchAllPages_throws get 2 5); [|reflexivity|lia].
  intros p Hp. exists [p]. split; [|done].
  unfold get. destruct (Nat.leb_spec p 2); [done|lia].
Defined.

(** X3: against a server whose every page has something in it the loop
    never ends, however many requests it is allowed. *)
Theorem fetchAllPages_never_ends {A} (get : nat → option (list A)) requests :
  (∀ p, (1 ≤ p)%nat → filled get p) →
  fetchAllPages get requests = Unfinished.
Proof.
  intros Hfilled. unfold fetchAllPages.
  rewrite (fetch_pages_filled get requests) by
    (try lia; intros i Hi; apply Hfilled; lia).
  by rewrite Nat.sub_diag.
Qed.

Lemma fetchAllPages_never_ends_witness :
  fetchAllPages (λ p : nat, Some [p]) 1000 = Unfinished.
Proof.
  apply (fetchAllPages_never_ends (λ p : nat, Some [p]) 1000).
  intros p _. by exists [p].
Defined.

(** ** The map from merge commits to branches *)

Lemma buildCommitToBranchMapping_snoc l mr :
  buildCommitToBranchMapping (l ++ [mr])
  = if truthy (MR.sha mr)
    then <[MR.sha mr := Mapping.of_mr mr]> (buildCommitToBranchMapping l)
    else buildCommitToBranchMapping l.
Proof. unfold buildCommitToBranchMapping. by rewrite foldl_snoc. Qed.

(** X4: the map [buildCommitToBranchMapping] returns sends a sha to the
    branches of the last listed merge request that has it as its merge
    commit; a merge request not merged yet (no sha, or an empty one) is
    under no key. *)
Theorem buildCommitToBranchMapping_lookup mergeRequests k :
  buildCommitToBranchMapping mergeRequests !! k
  = Mapping.of_mr
      <$> last (filter (λ mr, MR.sha mr = k ∧ truthy k = true) mergeRequests).
Proof.
  induction mergeRequests as [|mr l IH] using rev_ind; [done|].
  rewrite buildCommitToBranchMapping_snoc, filter_app, filter_cons, filter_nil.
  destruct (truthy (MR.sha mr)) eqn:Ht.
  - destruct (decide (MR.sha mr = k)) as [<-|Hne].
    + rewrite lookup_insert_eq, decide_True by done. by rewrite last_snoc.
    + rewrite lookup_insert_ne by done.
      rewrite decide_False by (by intros [? _]). by rewrite app_nil_r.
  - rewrite decide_False; [by rewrite app_nil_r|].
    intros [<- Hk]. congruence.
Qed.

(** ** The pattern for merge titles *)

(** Whatever the matcher accepts, the pattern matches: the continuation
    was entered after some [w] at the head of [s] that [r] can consume. *)
Lemma run_sound r : ∀ s caps k res,
  Regex.run r s caps k = Some res →
  ∃ w s' caps', s = w ++ s' ∧ regex_matches r w caps caps'
                ∧ k s' caps' = Some res.
Proof.
  induction r as [| c | | r1 IH1 r2 IH2 | greedy r IH | i r IH];
    intros s caps k res Hrun; simpl in Hrun.
  - exists [], s, caps. repeat split; [constructor|done].
  - destruct s as [|c' s]; [done|].
    destruct (N.eqb_spec c c') as [->|]; [|done].
    exists [c'], s, caps. repeat split; [constructor|done].
  - destruct s as [|c' s]; [done|].
    destruct (Regex.LineTerminator c') eqn:Hc; [done|].
    exists [c'], s, caps. repeat split; [by constructor|done].
  - apply IH1 in Hrun as (w1 & s1 & caps1 & -> & H1 & Hrun).
    apply IH2 in Hrun as (w2 & s2 & caps2 & -> & H2 & Hk).
    exists (w1 ++ w2), s2, caps2. rewrite app_assoc.
    repeat split; [by econstructor|done].
  - revert Hrun. generalize (length s) at 1. intros n. revert s caps.
    induction n as [|n IHn]; intros s caps Hrun.
    + exists [], s, caps. repeat split; [constructor|done].
    + assert (k s caps = Some res
              ∨ Regex.run r s caps (λ s' caps',
                  if bool_decide (length s' < length s)%nat
                  then (fix iterate (n : nat) (s : jsstring)
                            (caps : Regex.captures) :=
                          match n with
                          | O => k s caps
                          | S n' =>
                              let once_more :=
                                Regex.run r s caps (λ s' caps',
                                  if bool_decide (length s' < length s)%nat
                                  then iterate n' s' caps' else None) in
                              if greedy then Regex.or_else once_more (k s caps)
                              else Regex.or_else (k s caps) once_more
                          end) n s' caps'
                  else None) = Some res) as [Hstop|Hmore].
      { destruct greedy; unfold Regex.or_else in Hrun;
          repeat match type of Hrun with
                 | match ?x with _ => _ end = _ => destruct x eqn:?
                 end; simplify_eq; auto. }
      * exists [], s, caps. repeat split; [constructor|done].
      * apply IH in Hmore as (w1 & s1 & caps1 & -> & H1 & Hk).
        case_bool_decide as Hlen; [|done].
        apply IHn in Hk as (w2 & s2 & caps2 & -> & H2 & Hk).
        exists (w1 ++ w2), s2, caps2. rewrite app_assoc.
        repeat split; [|done].
        econstructor; try eassumption.
        intros ->. simpl in Hlen. lia.
  - apply IH in Hrun as (w & s' & caps' & -> & H & Hk).
    exists w, s', (<[i := w]> caps').
    repeat split; [by constructor|].
    rewrite length_app in Hk.
    replace (length w + length s' - length s')%nat with (length w) in Hk by lia.
    by rewrite take_app_length in Hk.
Qed.

Lemma match_sound r s m :
  Regex.match_ r s = Some m →
  ∃ before w after, s = before ++ w ++ after ∧ regex_matches r w ∅ m.
Proof.
  induction s as [|c s IH]; simpl.
  - destruct (Regex.run r [] ∅ (λ _ caps, Some caps)) as [m'|] eqn:Hrun; [|done].
    intros [= ->]. apply run_sound in Hrun as (w & s' & caps' & Hs & H & [= ->]).
    exists [], w, s'. by split.
  - destruct (Regex.run r (c :: s) ∅ (λ _ caps, Some caps)) as [m'|] eqn:Hrun.
    + intros [= ->]. apply run_sound in Hrun as (w & s' & caps' & Hs & H & [= ->]).
      exists [], w, s'. by split.
    + intros (before & w & after & -> & H)%IH.
      exists (c :: before), w, after. by split.
Qed.

Lemma matches_literal (l : jsstring) w caps caps' :
  regex_matches (foldr (λ c r, Regex.Seq (Regex.Chr c) r) Regex.Eps l)
    w caps caps' →
  w = l ∧ caps' = caps.
Proof.
  revert w caps. induction l as [|c l IH]; intros w caps H; simpl in H.
  - by inversion H.
  - inversion H as [| | |? ? w1 w2 ? caps1 ? H1 H2| | |]; subst.
    inversion H1; subst. apply IH in H2 as [-> ->]. done.
Qed.

Lemma matches_dots greedy w caps caps' :
  regex_matches (Regex.Star greedy Regex.Dot) w caps caps' →
  one_line w ∧ caps' = caps.
Proof.
  intros H. remember (Regex.Star greedy Regex.Dot) as r eqn:Hr.
  induction H as [| | | |g r0 caps0|g r0 w1 w2 caps0 caps1 caps2 Hne H1 _ H2 IH|];
    try discriminate.
  - split; [constructor|done].
  - injection Hr as -> ->. destruct (IH eq_refl) as [Hw ->].
    inversion H1; subst. split; [|done].
    constructor; [done|exact Hw].
Qed.

Lemma matches_dots_plus greedy w caps caps' :
  regex_matches (Regex.plus greedy Regex.Dot) w caps caps' →
  w ≠ [] ∧ one_line w ∧ caps' = caps.
Proof.
  intros H. unfold Regex.plus in H.
  inversion H as [| | |? ? w1 w2 ? caps1 ? H1 H2| | |]; subst.
  inversion H1; subst. apply matches_dots in H2 as [Hw ->].
  repeat split; [done|]. by constructor.
Qed.

(** What the pattern for merge titles consumes. *)
Lemma merge_title_pattern_inv w m :
  regex_matches merge_title_pattern w ∅ m →
  ∃ g1 mid g2,
    w = lit "Merge branch '" ++ g1 ++ lit "'" ++ mid ++ lit "into " ++ g2
    ∧ g1 ≠ [] ∧ one_line g1 ∧ one_line mid ∧ g2 ≠ [] ∧ one_line g2
    ∧ m !! 1%nat = Some g1 ∧ m !! 2%nat = Some g2.
Proof.
  intros H. unfold merge_title_pattern in H.
  inversion H as [| | |? ? w1 wa ? c1 ? H1 Ha| | |]; subst. clear H.
  apply matches_literal in H1 as [-> ->].
  inversion Ha as [| | |? ? w2 wb ? c2 ? H2 Hb| | |]; subst. clear Ha.
  inversion H2 as [| | | | | |? ? ? ? c2' Hg1]; subst. clear H2.
  apply matches_dots_plus in Hg1 as (Hne1 & Hl1 & ->).
  inversion Hb as [| | |? ? w3 wc ? c3 ? H3 Hc| | |]; subst. clear Hb.
  apply matches_literal in H3 as [-> ->].
  inversion Hc as [| | |? ? w4 wd ? c4 ? H4 Hd| | |]; subst. clear Hc.
  apply matches_dots in H4 as [Hl4 ->].
  inversion Hd as [| | |? ? w5 we ? c5 ? H5 He| | |]; subst. clear Hd.
  apply matches_literal in H5 as [-> ->].
  inversion He as [| | | | | |? ? ? ? c6 Hg2]; subst. clear He.
  apply matches_dots_plus in Hg2 as (Hne2 & Hl2 & ->).
  exists w2, w4, we. repeat split; try done.
Qed.

(** X5: whenever the pattern for merge titles matches, the title reads
    [.. Merge branch 'g1' mid into g2 ..] with [g1] and [g2] not empty and
    free of line breaks, and the match reports [g1] and [g2] as its groups
    1 and 2. *)
Theorem merge_title_match_shape title m :
  Regex.match_ merge_title_pattern title = Some m →
  ∃ before g1 mid g2 after,
    title = before ++ lit "Merge branch '" ++ g1 ++ lit "'" ++ mid
            ++ lit "into " ++ g2 ++ after
    ∧ g1 ≠ [] ∧ one_line g1
    ∧ one_line mid
    ∧ g2 ≠ [] ∧ one_line g2
    ∧ Regex.group m 1 = JStr g1
    ∧ Regex.group m 2 = JStr g2.
Proof.
  intros (before & w & after & -> & H)%match_sound.
  apply merge_title_pattern_inv
    in H as (g1 & mid & g2 & -> & Hne1 & Hl1 & Hlm & Hne2 & Hl2 & Hm1 & Hm2).
  exists before, g1, mid, g2, after.
  unfold Regex.group. rewrite Hm1, Hm2.
  repeat split; try done.
  by rewrite <- !app_assoc.
Qed.

Lemma merge_title_match_shape_witness :
  ∃ before g1 mid g2 after,
    lit "Merge branch 'feat/login' into develop"
    = before ++ lit "Merge branch '" ++ g1 ++ lit "'" ++ mid
      ++ lit "into " ++ g2 ++ after
    ∧ g2 ≠ [].
Proof.
  destruct (Regex.match_ merge_title_pattern
              (lit "Merge branch 'feat/login' into develop")) as [m|] eqn:Hm;
    [|by vm_compute in Hm].
  destruct (merge_title_match_shape _ m Hm)
    as (before & g1 & mid & g2 & after & Ht & _ & _ & _ & Hne & _).
  by exists before, g1, mid, g2, after.
Defined.

(** X6: the walk never falls back on the name of the branch for a merge
    title, and never leaves an empty branch: either the title does not
    match, and the activity carries the name of the branch walked and no
    target, or it matches, and branch and target are both the same
    non-empty piece of the title. *)
Theorem branch_commit_activity_branches branch_name commit :
  let a := branch_commit_activity branch_name commit in
  (Regex.match_ merge_title_pattern (ApiCommit.title commit) = None
   ∧ branch a = JStr branch_name ∧ target_branch a = JNull)
  ∨ (∃ before g2 after,
       ApiCommit.title commit = before ++ lit "into " ++ g2 ++ after
       ∧ g2 ≠ [] ∧ one_line g2
       ∧ branch a = JStr g2 ∧ target_branch a = JStr g2).
Proof.
  intros a. subst a. unfold branch_commit_activity. simpl.
  destruct (Regex.match_ merge_title_pattern (ApiCommit.title commit))
    as [m|] eqn:Hm; [right|by left].
  apply match_sound in Hm as (before & w & after & Ht & H).
  apply merge_title_pattern_inv
    in H as (g1 & mid & g2 & -> & _ & _ & _ & Hne & Hl & _ & Hm2).
  exists (before ++ lit "Merge branch '" ++ g1 ++ lit "'" ++ mid), g2, after.
  unfold Regex.group. rewrite Hm2. split; [by rewrite Ht, <- !app_assoc|].
  repeat split; try done; unfold js_or; by destruct g2.
Qed.

(** ** More on the collection of commits *)

Lemma extends_weaken (Q Q' : Activity → Prop) st st' :
  (∀ a, Q a → Q' a) → extends Q st st' → extends Q' st st'.
Proof.
  intros HQ (new & Hall & Hseen & Hnew). exists new. repeat split; auto.
Qed.

Lemma same_commits_warn l st : same_commits (warn l st) st.
Proof. done. Qed.

Section CollectMore.
Variable remote : Remote.
Variables (projectId : Z) (userEmail : jsstring).

Lemma visit_same mk st st' c :
  same_commits st st' →
  same_commits (visit userEmail mk st c) (visit userEmail mk st' c).
Proof.
  intros [Ha Hs]. unfold visit. rewrite Hs.
  case_decide; [|done]. split; simpl; congruence.
Qed.

Lemma foldl_visit_same mk commits : ∀ st st',
  same_commits st st' →
  same_commits (foldl (visit userEmail mk) st commits)
    (foldl (visit userEmail mk) st' commits).
Proof.
  induction commits as [|c l IH]; intros st st' H; [done|].
  simpl. by apply IH, visit_same.
Qed.

Lemma visit_mr_same st st' mr :
  same_commits st st' →
  same_commits (visit_mr remote projectId userEmail st mr)
    (visit_mr remote projectId userEmail st' mr).
Proof.
  intros H. unfold visit_mr.
  destruct (mr_commits_of remote projectId (MR.iid mr)); [|done].
  by apply foldl_visit_same.
Qed.

Lemma foldl_visit_mr_same mrs0 : ∀ st st',
  same_commits st st' →
  same_commits (foldl (visit_mr remote projectId userEmail) st mrs0)
    (foldl (visit_mr remote projectId userEmail) st' mrs0).
Proof.
  induction mrs0 as [|mr l IH]; intros st st' H; [done|].
  simpl. by apply IH, visit_mr_same.
Qed.

Lemma walk_branches_same bs : ∀ st st',
  same_commits st st' →
  same_commits (walk_branches remote projectId userEmail bs st).1
    (walk_branches remote projectId userEmail bs st').1.
Proof.
  induction bs as [|b l IH]; intros st st' H; simpl; [done|].
  destruct (branch_commits_of remote projectId b); [|done].
  by apply IH, foldl_visit_same.
Qed.

(** The commits [walk] returns are those of the loop, whether or not the
    loop was left by a throw. *)
Lemma walk_commits st bs :
  branches_of remote projectId = Some bs →
  same_commits (walk remote projectId userEmail st)
    (walk_branches remote projectId userEmail bs st).1.
Proof.
  intros Hbs. unfold walk. rewrite Hbs.
  by destruct (walk_branches remote projectId userEmail bs st) as [st' []].
Qed.

Lemma walk_same st st' :
  same_commits st st' →
  same_commits (walk remote projectId userEmail st)
    (walk remote projectId userEmail st').
Proof.
  intros H. destruct (branches_of remote projectId) as [bs|] eqn:Hbs.
  - destruct (walk_commits st bs Hbs) as [H1 H2].
    destruct (walk_commits st' bs Hbs) as [H1' H2'].
    destruct (walk_branches_same bs st st' H) as [H3 H4].
    split; congruence.
  - unfold walk. by rewrite Hbs.
Qed.

(** The loop over the merge requests, with what it pushes told apart by
    merge request. *)
Lemma foldl_visit_mr_new st0 mrs0 : ∀ st,
  seenCommits st0 ⊆ seenCommits st →
  extends (pushed_by_mrs remote projectId userEmail mrs0 st0)
    st (foldl (visit_mr remote projectId userEmail) st mrs0).
Proof.
  induction mrs0 as [|mr l IH]; intros st Hmono; simpl.
  - apply extends_refl.
  - apply (extends_trans _ _ (visit_mr remote projectId userEmail st mr)).
    + unfold visit_mr.
      destruct (mr_commits_of remote projectId (MR.iid mr)) as [commits|] eqn:Hans.
      * destruct (foldl_visit_extends userEmail (mr_commit_activity mr) st commits)
          as [Hext _].
        eapply extends_weaken; [|exact Hext].
        intros a (c & Hc & Hau & Hfresh & ->).
        exists mr, commits, c. repeat split; try done; [left|].
        intros ?. by apply Hfresh, Hmono.
      * apply extends_warn, extends_refl.
    + eapply extends_weaken; [|apply IH].
      * intros a (mr' & commits & c & Hmr & ?). exists mr', commits, c.
        split; [by right|done].
      * etrans; [exact Hmono|].
        destruct (visit_mr_extends remote projectId userEmail [mr] st mr)
          as [(_ & _ & Hs & _) _]; [left|exact Hs].
Qed.

(** The loop over the branches, likewise. *)
Lemma walk_branches_new st0 bs : ∀ st,
  seenCommits st0 ⊆ seenCommits st →
  extends (pushed_by_walk remote projectId userEmail bs st0)
    st (walk_branches remote projectId userEmail bs st).1.
Proof.
  induction bs as [|b l IH]; intros st Hmono; simpl.
  - apply extends_refl.
  - destruct (branch_commits_of remote projectId b) as [commits|] eqn:Hans;
      [|apply extends_refl].
    destruct (foldl_visit_extends userEmail (branch_commit_activity b) st commits)
      as [Hext _].
    eapply extends_trans.
    + eapply extends_weaken; [|exact Hext].
      intros a (c & Hc & Hau & Hfresh & ->).
      exists b, commits, c. repeat split; try done; [left|].
      intros ?. by apply Hfresh, Hmono.
    + eapply extends_weaken; [|apply IH].
      * intros a (b' & commits' & c & Hb' & ?). exists b', commits', c.
        split; [by right|done].
      * etrans; [exact Hmono|]. by destruct Hext as (_ & _ & Hs & _).
Qed.

(** As long as the branches answer, the loop goes on. *)
Lemma walk_branches_app bs1 bs2 : ∀ st,
  (∀ b, b ∈ bs1 → is_Some (branch_commits_of remote projectId b)) →
  walk_branches remote projectId userEmail (bs1 ++ bs2) st
  = walk_branches remote projectId userEmail bs2
      (walk_branches remote projectId userEmail bs1 st).1.
Proof.
  induction bs1 as [|b l IH]; intros st Hans; simpl; [done|].
  destruct (Hans b (list_elem_of_here _ _)) as [commits Hb]. rewrite Hb.
  apply IH. intros b' Hb'. apply Hans. by right.
Qed.
End CollectMore.

(** X7: a merge request whose commit list cannot be fetched changes
    nothing but the console: the commits returned are those returned
    without it. *)
Theorem unanswered_merge_request_is_skipped
    remote projectId userEmail l1 mr l2 :
  mr_commits_of remote projectId (MR.iid mr) = None →
  getCommitsWithCorrectBranch remote projectId userEmail (l1 ++ mr :: l2)
  = getCommitsWithCorrectBranch remote projectId userEmail (l1 ++ l2).
Proof.
  intros Hnone. unfold getCommitsWithCorrectBranch, collect_commits.
  apply walk_same. rewrite !foldl_app. simpl.
  apply foldl_visit_mr_same. unfold visit_mr at 1. rewrite Hnone.
  apply same_commits_warn.
Qed.

Lemma unanswered_merge_request_is_skipped_witness :
  getCommitsWithCorrectBranch Sample.server 1 (ApiUser.email Sample.me)
    ([Sample.feat_into_main_mr] ++ Sample.release 8 "2024-06-01T00:00:00Z" :: [])
  = getCommitsWithCorrectBranch Sample.server 1 (ApiUser.email Sample.me)
      ([Sample.feat_into_main_mr] ++ []).
Proof.
  apply (unanswered_merge_request_is_skipped Sample.server 1
           (ApiUser.email Sample.me) [Sample.feat_into_main_mr]
           (Sample.release 8 "2024-06-01T00:00:00Z") []).
  reflexivity.
Defined.

(** X8: when a branch does not answer, the walk stops there: what the
    branches before it gave is kept, the branches after it are not asked. *)
Theorem walk_stops_at_unanswered_branch
    remote projectId userEmail l1 b l2 st :
  (∀ b', b' ∈ l1 → is_Some (branch_commits_of remote projectId b')) →
  branch_commits_of remote projectId b = None →
  walk_branches remote projectId userEmail (l1 ++ b :: l2) st
  = ((walk_branches remote projectId userEmail l1 st).1, true).
Proof.
  intros Hans Hnone. rewrite walk_branches_app by done.
  simpl. by rewrite Hnone.
Qed.

Lemma walk_stops_at_unanswered_branch_witness :
  let remote :=
    {| merge_requests_of := λ _ _, Some [];
       mr_commits_of := λ _ _, None;
       branches_of := λ _, Some [lit "main"; lit "gone"; lit "feat"];
       branch_commits_of := λ _ b,
         if bool_decide (b = lit "gone") then None else Some [Sample.x1] |} in
  allCommits
    (walk_branches remote 1 (ApiUser.email Sample.me)
       ([lit "main"] ++ lit "gone" :: [lit "feat"]) start).1
  = [branch_commit_activity (lit "main") Sample.x1].
Proof.
  intros remote.
  rewrite (walk_stops_at_unanswered_branch remote 1 (ApiUser.email Sample.me)
             [lit "main"] (lit "gone") [lit "feat"] start).
  - reflexivity.
  - intros b' ->%list_elem_of_singleton. by eexists.
  - reflexivity.
Defined.

(** X9: every activity returned stands for a commit that the server shows,
    in the commit list of a merge request given or of a listed branch, and
    whose author is the user: it has the type ["Commit"], the id, title and
    date of that commit, and no project yet.  A commit of anyone else is
    never returned: when every commit shown under an id has another author,
    no activity carries that id. *)
Theorem getCommitsWithCorrectBranch_authorship
    remote projectId userEmail mergeRequests :
  let emitted :=
    getCommitsWithCorrectBranch remote projectId userEmail mergeRequests in
  (∀ a, a ∈ emitted →
     type a = Commit_type
     ∧ project a = JUndefined
     ∧ ∃ c, shown remote projectId mergeRequests c
            ∧ ApiCommit.author_email c = userEmail
            ∧ sha a = JStr (ApiCommit.id c)
            ∧ title a = JStr (ApiCommit.title c)
            ∧ date a = JStr (ApiCommit.created_at c))
  ∧ (∀ id, (∀ c, shown remote projectId mergeRequests c →
                 ApiCommit.id c = id →
                 ApiCommit.author_email c ≠ userEmail) →
           JStr id ∉ sha <$> emitted).
Proof.
  intros emitted.
  assert (∀ a, a ∈ emitted →
            type a = Commit_type
            ∧ project a = JUndefined
            ∧ ∃ c, shown remote projectId mergeRequests c
                   ∧ ApiCommit.author_email c = userEmail
                   ∧ sha a = JStr (ApiCommit.id c)
                   ∧ title a = JStr (ApiCommit.title c)
                   ∧ date a = JStr (ApiCommit.created_at c)) as Hfirst.
  { intros a Ha.
    destruct (getCommitsWithCorrectBranch_provenance _ _ _ _ _ Ha)
      as [(mr & c & [Hmr (cs & Hcs & Hc & Hau)] & ->)
         |[(b & c & (bs & cs & Hbs & Hb & Hcs & Hc & Hau) & ->) _]];
      (split; [done|split; [done|exists c; split; [|done]]]).
    - left. by exists mr, cs.
    - right. by exists bs, b, cs. }
  split; [exact Hfirst|].
  intros id Hothers (a & Hsha & Ha)%list_elem_of_fmap.
  destruct (Hfirst a Ha) as (_ & _ & c & Hshown & Hau & Hid & _).
  rewrite Hid in Hsha. injection Hsha as ->.
  by apply (Hothers c Hshown).
Qed.

Lemma getCommitsWithCorrectBranch_authorship_witness :
  getCommitsWithCorrectBranch Sample.shared 1 (ApiUser.email Sample.me)
    [Sample.feat_into_main_mr]
  = [branch_commit_activity (lit "main") Sample.x1]
  ∧ JStr (ApiCommit.id Sample.theirs)
    ∉ sha <$> getCommitsWithCorrectBranch Sample.shared 1
                (ApiUser.email Sample.me) [Sample.feat_into_main_mr].
Proof.
  split; [vm_compute; reflexivity|].
  apply (proj2 (getCommitsWithCorrectBranch_authorship Sample.shared 1
                  (ApiUser.email Sample.me) [Sample.feat_into_main_mr])).
  intros c [(mr & cs & _ & Hcs & Hc)|(bs & b & cs & _ & _ & Hcs & Hc)] Hid;
    simpl in Hcs; injection Hcs as <-.
  - apply list_elem_of_singleton in Hc as ->.
    apply (bool_decide_unpack _). vm_compute. exact I.
  - apply elem_of_cons in Hc as [->|Hc].
    + vm_compute in Hid. discriminate.
    + apply list_elem_of_singleton in Hc as ->.
      apply (bool_decide_unpack _). vm_compute. exact I.
Defined.

(** X10: the activities attributed through merge requests all come before
    those of the walk over the branches. *)
Theorem getCommitsWithCorrectBranch_order
    remote projectId userEmail mergeRequests :
  ∃ from_mrs from_branches,
    getCommitsWithCorrectBranch remote projectId userEmail mergeRequests
    = from_mrs ++ from_branches
    ∧ Forall (λ a, from_merge_request a = Some true) from_mrs
    ∧ Forall (λ a, from_merge_request a = Some false) from_branches.
Proof.
  unfold getCommitsWithCorrectBranch, collect_commits.
  destruct (foldl_visit_mr_extends remote projectId userEmail mergeRequests
              start mergeRequests (reflexivity _)) as [(n1 & H1 & _ & Q1) _].
  destruct (walk_extends remote projectId userEmail
              (foldl (visit_mr remote projectId userEmail) start mergeRequests))
    as (n2 & H2 & _ & Q2).
  exists n1, n2. rewrite H2, H1. simpl. split; [done|].
  split; apply Forall_forall; intros a Ha.
  - by destruct (Q1 a Ha) as (mr & c & _ & ->).
  - by destruct (Q2 a Ha) as [(b & c & _ & ->) _].
Qed.

(** X11: among the merge requests that show a commit of the user, the one
    listed first gives the attribution: if none of [l1] shows a commit of
    that id and [mr] does, then whatever is returned under that id carries
    the source and the target of [mr], whatever the merge requests after
    it and the branches show. *)
Theorem first_merge_request_wins
    remote projectId userEmail l1 mr l2 commits c :
  (∀ mr' c', in_merge_request remote projectId userEmail l1 mr' c' →
             ApiCommit.id c' ≠ ApiCommit.id c) →
  mr_commits_of remote projectId (MR.iid mr) = Some commits →
  c ∈ commits →
  ApiCommit.author_email c = userEmail →
  ∀ a, a ∈ getCommitsWithCorrectBranch remote projectId userEmail
             (l1 ++ mr :: l2) →
       sha a = JStr (ApiCommit.id c) →
       ∃ c', c' ∈ commits ∧ ApiCommit.id c' = ApiCommit.id c
             ∧ a = mr_commit_activity mr c'.
Proof.
  intros Hl1 Hans Hc Hau a Ha Hsha.
  unfold getCommitsWithCorrectBranch, collect_commits in Ha.
  rewrite foldl_app in Ha. simpl in Ha.
  set (st1 := foldl (visit_mr remote projectId userEmail) start l1) in *.
  set (st2 := visit_mr remote projectId userEmail st1 mr) in *.
  set (st3 := foldl (visit_mr remote projectId userEmail) st2 l2) in *.
  destruct (foldl_visit_mr_extends remote projectId userEmail l1 start l1
              (reflexivity _)) as [(n1 & H1 & _ & Q1) _].
  fold st1 in H1.
  assert (st2 = foldl (visit userEmail (mr_commit_activity mr)) st1 commits)
    as Hst2 by (subst st2; unfold visit_mr; by rewrite Hans).
  destruct (foldl_visit_extends userEmail (mr_commit_activity mr) st1 commits)
    as [(n2 & H2 & _ & Q2) Hseen2].
  rewrite <- Hst2 in H2, Hseen2.
  destruct (foldl_visit_mr_new remote projectId userEmail st2 l2 st2
              (reflexivity _)) as (n3 & H3 & S3 & Q3).
  fold st3 in H3, S3.
  destruct (walk_extends remote projectId userEmail st3) as (n4 & H4 & _ & Q4).
  rewrite H4, H3, H2, H1 in Ha. simpl in Ha.
  pose proof (Hseen2 c Hc Hau) as Hseen.
  apply elem_of_app in Ha as [Ha|Ha]; [apply elem_of_app in Ha as [Ha|Ha];
    [apply elem_of_app in Ha as [Ha|Ha]|]|].
  - destruct (Q1 a Ha) as (mr' & c' & Hin & ->).
    simpl in Hsha. injection Hsha as Hid. by destruct (Hl1 mr' c' Hin).
  - destruct (Q2 a Ha) as (c' & Hc' & _ & _ & ->).
    simpl in Hsha. injection Hsha as Hid. by exists c'.
  - destruct (Q3 a Ha) as (mr' & cs & c' & _ & _ & _ & _ & Hfresh & ->).
    simpl in Hsha. injection Hsha as Hid. rewrite Hid in Hfresh. done.
  - destruct (Q4 a Ha) as [_ (id & Hid & Hfresh)].
    rewrite Hsha in Hid. injection Hid as <-. destruct Hfresh. by apply S3.
Qed.

Lemma first_merge_request_wins_witness :
  ∃ c', c' ∈ [Sample.x1] ∧ ApiCommit.id c' = ApiCommit.id Sample.x1
        ∧ mr_commit_activity Sample.feat_into_main_mr Sample.x1
          = mr_commit_activity Sample.feat_into_main_mr c'.
Proof.
  apply (first_merge_request_wins Sample.server 1 (ApiUser.email Sample.me)
           [] Sample.feat_into_main_mr
           [Sample.release 7 "2024-06-01T00:00:00Z"] [Sample.x1] Sample.x1).
  - intros mr' c' [Hin _]. by apply elem_of_nil in Hin.
  - reflexivity.
  - left.
  - reflexivity.
  - vm_compute. left.
  - reflexivity.
Defined.

(** X12: among the branches, the one listed first gives the attribution:
    when no merge request shows a commit of that id, the branches of [l1]
    all answer and show none, and [b] shows one, whatever is returned under
    that id was pushed for [b], and something is. *)
Theorem first_branch_wins
    remote projectId userEmail mergeRequests l1 b l2 commits c :
  branches_of remote projectId = Some (l1 ++ b :: l2) →
  (∀ mr c', in_merge_request remote projectId userEmail mergeRequests mr c' →
            ApiCommit.id c' ≠ ApiCommit.id c) →
  (∀ b', b' ∈ l1 → is_Some (branch_commits_of remote projectId b')) →
  (∀ b' commits' c', b' ∈ l1 →
     branch_commits_of remote projectId b' = Some commits' →
     c' ∈ commits' → ApiCommit.author_email c' = userEmail →
     ApiCommit.id c' ≠ ApiCommit.id c) →
  branch_commits_of remote projectId b = Some commits →
  c ∈ commits →
  ApiCommit.author_email c = userEmail →
  let emitted :=
    getCommitsWithCorrectBranch remote projectId userEmail mergeRequests in
  (∃ a, a ∈ emitted ∧ sha a = JStr (ApiCommit.id c))
  ∧ ∀ a, a ∈ emitted → sha a = JStr (ApiCommit.id c) →
      ∃ c', c' ∈ commits ∧ ApiCommit.id c' = ApiCommit.id c
            ∧ a = branch_commit_activity b c'.
Proof.
  intros Hbs Hnomr Hans Hl1 Hb Hc Hau emitted. subst emitted.
  unfold getCommitsWithCorrectBranch.
  set (st0 := foldl (visit_mr remote projectId userEmail) start mergeRequests).
  assert (same_commits (collect_commits remote projectId userEmail mergeRequests)
            (walk_branches remote projectId userEmail (l1 ++ b :: l2) st0).1)
    as [Hsame Hsame_seen] by (by apply walk_commits).
  destruct (collect_commits_coherent remote projectId userEmail mergeRequests)
    as [_ Hco].
  rewrite Hsame. rewrite walk_branches_app in * by done.
  set (st1 := (walk_branches remote projectId userEmail l1 st0).1) in *.
  simpl in *. rewrite Hb in *.
  set (st2 := foldl (visit userEmail (branch_commit_activity b)) st1 commits)
    in *.
  destruct (foldl_visit_mr_extends remote projectId userEmail mergeRequests
              start mergeRequests (reflexivity _)) as [(n0 & H0 & _ & Q0) _].
  fold st0 in H0.
  destruct (walk_branches_new remote projectId userEmail st0 l1 st0
              (reflexivity _)) as (n1 & H1 & _ & Q1).
  fold st1 in H1.
  destruct (foldl_visit_extends userEmail (branch_commit_activity b) st1 commits)
    as [(n2 & H2 & _ & Q2) Hseen2].
  fold st2 in H2, Hseen2.
  destruct (walk_branches_new remote projectId userEmail st2 l2 st2
              (reflexivity _)) as (n3 & H3 & S3 & Q3).
  pose proof (Hseen2 c Hc Hau) as Hseen.
  split.
  - apply S3 in Hseen. rewrite <- Hsame_seen in Hseen.
    apply Hco, list_elem_of_fmap in Hseen as (a & Ha & Hin).
    exists a. split; [|done]. by rewrite <- Hsame.
  - intros a Ha Hsha. rewrite H3, H2, H1, H0 in Ha. simpl in Ha.
    apply elem_of_app in Ha as [Ha|Ha]; [apply elem_of_app in Ha as [Ha|Ha];
      [apply elem_of_app in Ha as [Ha|Ha]|]|].
    + destruct (Q0 a Ha) as (mr' & c' & Hin & ->).
      simpl in Hsha. injection Hsha as Hid. by destruct (Hnomr mr' c' Hin).
    + destruct (Q1 a Ha) as (b' & cs & c' & Hb' & Hcs & Hc' & Hau' & _ & ->).
      simpl in Hsha. injection Hsha as Hid.
      by destruct (Hl1 b' cs c' Hb' Hcs Hc' Hau').
    + destruct (Q2 a Ha) as (c' & Hc' & _ & _ & ->).
      simpl in Hsha. injection Hsha as Hid. by exists c'.
    + destruct (Q3 a Ha) as (b' & cs & c' & _ & _ & _ & _ & Hfresh & ->).
      simpl in Hsha. injection Hsha as Hid. rewrite Hid in Hfresh. done.
Qed.

Lemma first_branch_wins_witness :
  let emitted :=
    getCommitsWithCorrectBranch Sample.three_branches 1
      (ApiUser.email Sample.me) [Sample.feat_into_main_mr] in
  emitted = [mr_commit_activity Sample.feat_into_main_mr Sample.merge_commit;
             branch_commit_activity (lit "feat") Sample.x1]
  ∧ (∃ a, a ∈ emitted ∧ sha a = JStr (ApiCommit.id Sample.x1))
  ∧ ∃ c', c' ∈ [Sample.x1]
          ∧ ApiCommit.id c' = ApiCommit.id Sample.x1
          ∧ branch_commit_activity (lit "feat") Sample.x1
            = branch_commit_activity (lit "feat") c'.
Proof.
  intros emitted.
  assert (emitted
          = [mr_commit_activity Sample.feat_into_main_mr Sample.merge_commit;
             branch_commit_activity (lit "feat") Sample.x1]) as Hemitted.
  { vm_compute. reflexivity. }
  split; [exact Hemitted|].
  destruct (first_branch_wins Sample.three_branches 1 (ApiUser.email Sample.me)
              [Sample.feat_into_main_mr] [lit "docs"] (lit "feat") [lit "main"]
              [Sample.x1] Sample.x1) as [Hsome Hall].
  - reflexivity.
  - intros mr' c' [_ (cs & Hcs & Hc' & _)] Hid.
    simpl in Hcs. injection Hcs as <-.
    apply list_elem_of_singleton in Hc' as ->.
    vm_compute in Hid. discriminate.
  - intros b' ->%list_elem_of_singleton. by eexists.
  - intros b' cs c' ->%list_elem_of_singleton Hcs Hc' _ Hid.
    vm_compute in Hcs. injection Hcs as <-.
    apply list_elem_of_singleton in Hc' as ->.
    vm_compute in Hid. discriminate.
  - reflexivity.
  - left.
  - reflexivity.
  - split; [exact Hsome|].
    apply Hall; [|reflexivity].
    fold emitted. rewrite Hemitted. right. left.
Defined.

(** ** The main loop *)

Lemma collect_all_elem remote user projects a :
  a ∈ collect_all remote user projects ↔
  ∃ p, p ∈ projects ∧ a ∈ project_activities remote user p.
Proof.
  unfold collect_all.
  induction projects as [|p l IH] using rev_ind.
  - simpl. split; [by intros ?%elem_of_nil|].
    intros (p & Hp & _). by apply elem_of_nil in Hp.
  - rewrite foldl_snoc, elem_of_app, IH. split.
    + intros [(q & Hq & Ha)|Ha].
      * exists q. split; [|done]. apply elem_of_app. by left.
      * exists p. split; [|done]. apply elem_of_app. right. left.
    + intros (q & [Hq|Hq]%elem_of_app & Ha); [left; by exists q|].
      apply list_elem_of_singleton in Hq as ->. by right.
Qed.

Lemma project_activities_elem remote user p a :
  a ∈ project_activities remote user p →
  (∃ mr, a = mr_activity (ApiProject.name_with_namespace p) mr)
  ∨ (∃ c, a = set_project (ApiProject.name_with_namespace p) c
          ∧ type c = Commit_type).
Proof.
  unfold project_activities.
  intros [(mr & -> & _)%list_elem_of_fmap
         |(c & -> & Hc)%list_elem_of_fmap]%elem_of_app.
  - left. by exists mr.
  - right. exists c. split; [done|].
    pose proof (getCommitsWithCorrectBranch_types remote (ApiProject.id p)
                  (ApiUser.email user)
                  (default [] (getMergeRequests remote (ApiProject.id p)
                                 (ApiUser.id user)))) as Ht.
    rewrite Forall_forall in Ht. by apply Ht.
Qed.

(** X13: everything the main loop collects is a commit or a merge request
    and carries the name of one of the projects listed. *)
Theorem collect_all_typed_and_labelled remote user projects :
  well_typed (collect_all remote user projects)
  ∧ ∀ a, a ∈ collect_all remote user projects →
      ∃ p, p ∈ projects ∧ project a = JStr (ApiProject.name_with_namespace p).
Proof.
  split.
  - apply Forall_forall. intros a (p & _ & Ha)%collect_all_elem.
    destruct (project_activities_elem _ _ _ _ Ha) as [(mr & ->)|(c & -> & Hc)];
      [by right|by left].
  - intros a (p & Hp & Ha)%collect_all_elem. exists p. split; [done|].
    by destruct (project_activities_elem _ _ _ _ Ha) as [(mr & ->)|(c & -> & _)].
Qed.

(** X14: when the merge requests of a project cannot be listed, its
    commits are collected all the same, every one of them attributed by
    the walk over the branches; the project gives no merge request. *)
Theorem unlisted_merge_requests remote user p :
  merge_requests_of remote (ApiProject.id p) (ApiUser.id user) = None →
  project_activities remote user p
  = set_project (ApiProject.name_with_namespace p)
      <$> getCommitsWithCorrectBranch remote (ApiProject.id p)
            (ApiUser.email user) []
  ∧ Forall (λ a, type a = Commit_type ∧ from_merge_request a = Some false)
      (project_activities remote user p).
Proof.
  intros Hnone.
  assert (project_activities remote user p
          = set_project (ApiProject.name_with_namespace p)
              <$> getCommitsWithCorrectBranch remote (ApiProject.id p)
                    (ApiUser.email user) []) as Heq.
  { unfold project_activities, getMergeRequests. by rewrite Hnone. }
  split; [exact Heq|]. rewrite Heq.
  apply Forall_fmap, Forall_forall. intros a Ha.
  destruct (getCommitsWithCorrectBranch_provenance _ _ _ _ _ Ha)
    as [(mr & c & [Hmr _] & _)|[(b & c & _ & ->) _]]; [|done].
  by apply elem_of_nil in Hmr.
Qed.

Lemma unlisted_merge_requests_witness :
  let remote :=
    {| merge_requests_of := λ _ _, None;
       mr_commits_of := λ _ _, Some [Sample.x1];
       branches_of := λ _, Some [lit "main"];
       branch_commits_of := λ _ _, Some [Sample.x1] |} in
  from_merge_request <$> project_activities remote Sample.me Sample.app
  = [Some false].
Proof.
  intros remote.
  rewrite (proj1 (unlisted_merge_requests remote Sample.me Sample.app eq_refl)).
  vm_compute. reflexivity.
Defined.

(** X15: every merge request the server lists for a project, merged or
    not, becomes one Merge Request activity, in the order listed, and
    these come before the commits of the project. *)
Theorem listed_merge_requests remote user p listed :
  merge_requests_of remote (ApiProject.id p) (ApiUser.id user) = Some listed →
  ∃ commits,
    project_activities remote user p
    = ((λ mr, {| type := MergeRequest_type;
                 project := JStr (ApiProject.name_with_namespace p);
                 title := JStr (ApiMR.title mr);
                 date := JStr (ApiMR.created_at mr);
                 sha := ApiMR.merge_commit_sha mr;
                 iid := Some (ApiMR.iid mr);
                 source := JStr (ApiMR.source_branch mr);
                 target := JStr (ApiMR.target_branch mr);
                 branch := JUndefined;
                 target_branch := JUndefined;
                 from_merge_request := None;
                 mr_source := JUndefined;
                 mr_target := JUndefined |}) <$> listed)
      ++ commits
    ∧ Forall (is_type Commit_type) commits.
Proof.
  intros Hsome. eexists. split.
  - unfold project_activities, getMergeRequests. rewrite Hsome. simpl.
    rewrite <- list_fmap_compose. reflexivity.
  - apply Forall_fmap. eapply Forall_impl;
      [apply getCommitsWithCorrectBranch_types|done].
Qed.

Lemma listed_merge_requests_witness :
  length (filter (is_type MergeRequest_type)
            (project_activities Sample.server Sample.me Sample.app)) = 1%nat.
Proof.
  destruct (listed_merge_requests Sample.server Sample.me Sample.app
              [Sample.feat_into_main] eq_refl) as (commits & Heq & Hc).
  rewrite Heq, filter_app, length_app.
  rewrite (filter_nil_intro _ commits); [reflexivity|].
  intros c Hc' Hm. rewrite Forall_forall in Hc.
  specialize (Hc c Hc'). unfold is_type in *.
  rewrite Hc in Hm. discriminate.
Defined.

(** ** More on the JSON record *)

(** X16: on a file whose member [activities] is an array, the data
    [extractExistingFromJson] returns is that array, and the identity sets
    are the shas of the Commit entries and the keys of the Merge Request
    entries that stand before the first [null], all of them when there is
    none; an entry of another type adds to neither.  The reader warns when
    the array holds [null], and only then.  On a record written by the
    script that is every entry of the record. *)
Theorem extractExistingFromJson_identities :
  (∀ entries stamp,
     let read :=
       Raw.extractExistingFromJson
         (Raw.Text (Raw.Object (Raw.Truthy (Raw.Arr entries)) stamp)) in
     Raw.data read.1 = Raw.Arr entries
     ∧ Raw.shas read.1 = list_to_set (commit_shas (Raw.before_null entries))
     ∧ Raw.mrs read.1
       = list_to_set (mrKey <$> filter (is_type MergeRequest_type)
                                   (Raw.before_null entries))
     ∧ read.2 = if bool_decide (None ∈ entries)
                then [Warn_could_not_parse_json TypeError] else [])
  ∧ (∀ o,
       let read := extractExistingFromJson (Text (Parsed o)) in
       data read.1 = activities o
       ∧ shas read.1 = list_to_set (commit_shas (activities o))
       ∧ mrs read.1
         = list_to_set (mrKey <$> filter (is_type MergeRequest_type)
                                     (activities o))
       ∧ read.2 = []).
Proof.
  split.
  - intros entries stamp read. subst read.
    cbn [Raw.extractExistingFromJson].
    destruct (Raw_forEach_identities
                {| Raw.shas := ∅; Raw.mrs := ∅; Raw.data := Raw.Arr entries |}
                entries) as (Hd & Hs & Hm & Ht).
    destruct (Raw.forEach _ entries) as [existing threw]. simpl in *.
    rewrite Hd, Hs, Hm, Ht, !(right_id_L ∅ (∪)). done.
  - intros o read. subst read.
    split; [apply prior_written|].
    split; [|split; [|done]]; apply set_eq; intros k.
    + rewrite (existing_shas (Text (Parsed o))), prior_written,
        elem_of_list_to_set.
      unfold commit_shas. rewrite list_elem_of_fmap. split.
      * intros (x & Hx & Ht & <-). exists x. split; [done|].
        by apply list_elem_of_filter.
      * intros (x & -> & [Ht Hx]%list_elem_of_filter). by exists x.
    + rewrite (existing_mrs (Text (Parsed o))), prior_written,
        elem_of_list_to_set, list_elem_of_fmap. split.
      * intros (x & Hx & Ht & <-). exists x. split; [done|].
        by apply list_elem_of_filter.
      * intros (x & -> & [Ht Hx]%list_elem_of_filter). by exists x.
Qed.

Lemma filter_two_types (l : list Activity) :
  (length (filter (is_type Commit_type) l)
   + length (filter (is_type MergeRequest_type) l) ≤ length l)%nat
  ∧ (well_typed l →
     (length (filter (is_type Commit_type) l)
      + length (filter (is_type MergeRequest_type) l) = length l)%nat).
Proof.
  induction l as [|x l [IHle IHeq]]; [done|].
  rewrite !filter_cons.
  split.
  - destruct (decide (is_type Commit_type x)) as [Hc|],
      (decide (is_type MergeRequest_type x)) as [Hm|]; simpl; try lia.
    unfold is_type in *. rewrite Hc in Hm. discriminate.
  - intros [Hx Hl]%Forall_cons. specialize (IHeq Hl).
    destruct (decide (is_type Commit_type x)) as [Hc|Hc],
      (decide (is_type MergeRequest_type x)) as [Hm|Hm]; simpl; try lia;
      unfold is_type in *.
    + rewrite Hc in Hm. discriminate.
    + by destruct Hx.
Qed.

(** X17: whenever [saveAsJson] writes, the file holds the array it
    returns, the clock reading, the length of the array as the total, and
    two counters that add up to the total at most, and to the total
    exactly when every entry is a commit or a merge request. *)
Theorem saveAsJson_counters Date_parse now data0 f :
  ¬ short_circuit data0 f →
  ∃ o, (saveAsJson Date_parse now data0 f).1.2 = Text (Parsed o)
       ∧ activities o = (saveAsJson Date_parse now data0 f).1.1
       ∧ generated_at o = now
       ∧ total_activities o = length (activities o)
       ∧ (summary_commits o + summary_merge_requests o ≤ total_activities o)%nat
       ∧ (well_typed (prior f) → well_typed data0 →
          (summary_commits o + summary_merge_requests o
           = total_activities o)%nat).
Proof.
  intros Hs. rewrite saveAsJson_sort by done. simpl.
  eexists. split; [reflexivity|]. simpl.
  repeat split; [apply filter_two_types|].
  intros Hp Hd. apply filter_two_types.
  unfold well_typed. rewrite Array_sort_perm.
  apply Forall_app. split; [done|].
  unfold filteredData. apply Forall_forall.
  intros x [_ Hx]%list_elem_of_filter.
  unfold well_typed in Hd. rewrite Forall_forall in Hd. by apply Hd.
Qed.

Lemma saveAsJson_counters_witness :
  ∃ o, (saveAsJson Host.Date_parse Sample.clock [Sample.b2; Sample.note]
          Sample.record_a1).1.2 = Text (Parsed o)
       ∧ (summary_commits o + summary_merge_requests o ≤ total_activities o)%nat.
Proof.
  destruct (saveAsJson_counters Host.Date_parse Sample.clock
              [Sample.b2; Sample.note] Sample.record_a1)
    as (o & Ho & _ & _ & _ & Hle & _).
  - apply (bool_decide_eq_false_1 _). vm_compute. reflexivity.
  - by exists o.
Defined.

(** X18: the record only grows: what [saveAsJson] returns is the prior
    record and the delta, rearranged; every prior entry is still there, as
    often as before, and nothing is there that was in neither. *)
Theorem saveAsJson_append_only Date_parse now data0 f :
  let fullRecord := (saveAsJson Date_parse now data0 f).1.1 in
  prior f ⊆+ fullRecord
  ∧ length fullRecord = (length (prior f) + length (filteredData data0 f))%nat
  ∧ ∀ x, x ∈ fullRecord → x ∈ prior f ∨ x ∈ data0.
Proof.
  intros fullRecord. subst fullRecord.
  pose proof (saveAsJson_perm Date_parse now data0 f) as Hperm.
  repeat split.
  - rewrite Hperm. by apply submseteq_inserts_r.
  - by rewrite Hperm, length_app.
  - intros x. rewrite Hperm, elem_of_app. unfold filteredData.
    intros [?|[_ ?]%list_elem_of_filter]; auto.
Qed.

(** X19: an item whose identity is in the record already is dropped, even
    when it is another activity: a second merge request between the same
    two branches, or the same commit under a new attribution, never
    reaches the record. *)
Theorem saveAsJson_drops_known_identity Date_parse now data0 f x y :
  y ∈ prior f →
  (type x = Commit_type ∧ type y = Commit_type ∧ sha x = sha y)
  ∨ (type x = MergeRequest_type ∧ type y = MergeRequest_type
     ∧ mrKey x = mrKey y) →
  (x ∉ filteredData data0 f)
  ∧ (x ∉ prior f → x ∉ (saveAsJson Date_parse now data0 f).1.1).
Proof.
  intros Hy Hsame.
  assert (x ∉ filteredData data0 f) as Hdrop.
  { unfold filteredData. intros [Hnew _]%list_elem_of_filter.
    unfold is_new in Hnew.
    destruct Hsame as [(Hx & Hty & Hs)|(Hx & Hty & Hk)].
    - rewrite decide_True in Hnew by done.
      apply Hnew, existing_shas. by exists y.
    - rewrite decide_False in Hnew by (rewrite Hx; discriminate).
      rewrite decide_True in Hnew by done.
      apply Hnew, existing_mrs. by exists y. }
  split; [done|]. intros Hx.
  rewrite saveAsJson_perm, elem_of_app. by intros [?|?].
Qed.

Lemma saveAsJson_drops_known_identity_witness :
  Sample.release2
  ∉ (saveAsJson Host.Date_parse Sample.clock [Sample.release2]
       (written Sample.clock [Sample.release1])).1.1.
Proof.
  refine (proj2 (saveAsJson_drops_known_identity Host.Date_parse Sample.clock
                   [Sample.release2] (written Sample.clock [Sample.release1])
                   Sample.release2 Sample.release1 _ _) _).
  - by_evaluation.
  - right. by_evaluation.
  - apply (bool_decide_eq_false_1 _). vm_compute. reflexivity.
Defined.

(** X20: whatever order the prior record was in, a record [saveAsJson]
    writes is in order: when the dates of the prior entries and of the
    batch can be read and something is new (or nothing was there), every
    entry returned is dated no earlier than the entry after it. *)
Theorem saveAsJson_sorts_what_it_writes Date_parse now data0 f :
  dated Date_parse (prior f) →
  dated Date_parse data0 →
  ¬ short_circuit data0 f →
  let fullRecord := (saveAsJson Date_parse now data0 f).1.1 in
  ∀ i a b, fullRecord !! i = Some a → fullRecord !! S i = Some b →
    instant Date_parse b ≤ instant Date_parse a.
Proof.
  intros Hp Hd Hs fullRecord i a b Ha Hb. subst fullRecord.
  rewrite saveAsJson_sort in Ha, Hb by done. simpl in Ha, Hb.
  eapply (StronglySorted_adjacent (key_desc (instant Date_parse)));
    [|exact Ha|exact Hb].
  apply Array_sort_sorted, dated_orders, Forall_app.
  split; [done|by apply dated_filteredData].
Qed.

Lemma saveAsJson_sorts_what_it_writes_witness :
  (saveAsJson Host.Date_parse Sample.clock [Sample.note]
     (written Sample.clock [Sample.a1; Sample.b2])).1.1
  = [Sample.note; Sample.b2; Sample.a1]
  ∧ instant Host.Date_parse Sample.b2 ≤ instant Host.Date_parse Sample.note.
Proof.
  split; [vm_compute; reflexivity|].
  apply (saveAsJson_sorts_what_it_writes Host.Date_parse Sample.clock
           [Sample.note] (written Sample.clock [Sample.a1; Sample.b2])
           ltac:(by_evaluation) ltac:(by_evaluation)
           ltac:(apply (bool_decide_eq_false_1 _); vm_compute; reflexivity)
           0%nat Sample.note Sample.b2);
    vm_compute; reflexivity.
Defined.

(** X21: a second run over the same batch leaves the file alone when the
    first run left a record with something in it; when the record is
    empty, it writes the empty record again, under the new clock
    reading. *)
Theorem saveAsJson_second_run_file Date_parse now now' data0 f :
  well_typed data0 →
  let first := saveAsJson Date_parse now data0 f in
  let second := saveAsJson Date_parse now' data0 first.1.2 in
  (first.1.1 ≠ [] → second.1.2 = first.1.2)
  ∧ (first.1.1 = [] → second.1.2 = written now' []).
Proof.
  intros Ht first second. subst first second.
  pose proof (second_delta_empty Date_parse now data0 f Ht) as Hd.
  pose proof (prior_saveAsJson Date_parse now data0 f) as Hp.
  set (f1 := (saveAsJson Date_parse now data0 f).1.2) in *.
  split; intros Hfull; rewrite <- Hp in Hfull.
  - by rewrite saveAsJson_short_circuit.
  - rewrite saveAsJson_sort by (by intros [_ ?]). simpl.
    by rewrite Hd, Hfull.
Qed.

Lemma saveAsJson_second_run_file_witness :
  let first :=
    saveAsJson Host.Date_parse Sample.clock [Sample.a1; Sample.b2] Missing in
  (saveAsJson Host.Date_parse (lit "later") [Sample.a1; Sample.b2]
     first.1.2).1.2 = first.1.2.
Proof.
  intros first.
  apply (proj1 (saveAsJson_second_run_file Host.Date_parse Sample.clock
                  (lit "later") [Sample.a1; Sample.b2] Missing
                  ltac:(by_evaluation))).
  vm_compute. discriminate.
Defined.

(** ** The text report *)

Section GroupFacts.
Variable dayLabel : jsval → jsstring.

Lemma group_push_keys k x g :
  fst <$> group_push k x g
  = if decide (k ∈ fst <$> g) then fst <$> g else (fst <$> g) ++ [k].
Proof.
  induction g as [|[k' items] g IH].
  - rewrite decide_False; [done|]. by intros ?%elem_of_nil.
  - cbn [group_push]. destruct (decide (k' = k)) as [->|Hne].
    + rewrite !fmap_cons. cbn [fst]. rewrite decide_True; [done|left].
    + rewrite !fmap_cons, IH. cbn [fst].
      destruct (decide (k ∈ fst <$> g)) as [Hin|Hin].
      * rewrite decide_True; [done|by right].
      * rewrite decide_False; [done|].
        intros [?|?]%elem_of_cons; [congruence|done].
Qed.

Lemma group_push_concat k x g :
  concat (snd <$> group_push k x g) ≡ₚ x :: concat (snd <$> g).
Proof.
  induction g as [|[k' items] g IH]; simpl; [done|].
  destruct (decide (k' = k)); simpl.
  - rewrite <- app_assoc. simpl. by rewrite <- Permutation_middle.
  - rewrite IH. by rewrite <- Permutation_middle.
Qed.

Lemma group_push_elem k x g k' items :
  NoDup (fst <$> g) →
  (k', items) ∈ group_push k x g →
  (k' ≠ k ∧ (k', items) ∈ g)
  ∨ (k' = k ∧ ∃ old, (k, old) ∈ g ∧ items = old ++ [x])
  ∨ (k' = k ∧ (k ∉ fst <$> g) ∧ items = [x]).
Proof.
  induction g as [|[k0 items0] g IH]; simpl; intros Hnd Hin.
  - apply list_elem_of_singleton in Hin as [= -> ->].
    right. right. split; [done|]. split; [|done]. by intros ?%elem_of_nil.
  - apply NoDup_cons in Hnd as [Hk0 Hnd].
    destruct (decide (k0 = k)) as [->|Hne].
    + apply elem_of_cons in Hin as [[= -> ->]|Hin].
      * right. left. split; [done|]. exists items0. split; [left|done].
      * left. split; [|by right].
        intros ->. apply Hk0. apply list_elem_of_fmap. by exists (k, items).
    + apply elem_of_cons in Hin as [[= -> ->]|Hin].
      * left. split; [done|left].
      * destruct (IH Hnd Hin) as [[? ?]|[[-> (old & Hold & ->)]|(-> & Hk & ->)]].
        -- left. split; [done|by right].
        -- right. left. split; [done|]. exists old. split; [by right|done].
        -- right. right. split; [done|]. split; [|done].
           intros [?|?]%elem_of_cons; [by apply Hne|done].
Qed.

Lemma groupByDay_snoc l x :
  groupByDay dayLabel (l ++ [x])
  = group_push (dayLabel (date x)) x (groupByDay dayLabel l).
Proof. unfold groupByDay. by rewrite foldl_snoc. Qed.

Lemma groupByDay_concat l :
  concat (snd <$> groupByDay dayLabel l) ≡ₚ l.
Proof.
  induction l as [|x l IH] using rev_ind; [done|].
  rewrite groupByDay_snoc, group_push_concat, IH.
  by rewrite <- Permutation_cons_append.
Qed.

(** X22: [groupByDay] makes one group for each day label met; a group
    holds the activities of its label, all of them, in the order of the
    batch, and is never empty. *)
Theorem groupByDay_groups (l : list Activity) :
  NoDup (fst <$> groupByDay dayLabel l)
  ∧ (∀ x, x ∈ l → dayLabel (date x) ∈ fst <$> groupByDay dayLabel l)
  ∧ ∀ k items, (k, items) ∈ groupByDay dayLabel l →
      items ≠ [] ∧ items = filter (λ x, dayLabel (date x) = k) l.
Proof.
  induction l as [|x l (IHnd & IHcov & IHgr)] using rev_ind.
  - split; [apply NoDup_nil_2|]. split; [by intros ? ?%elem_of_nil|].
    intros k items Hin. by apply elem_of_nil in Hin.
  - rewrite groupByDay_snoc.
    assert (∀ k, k ∈ fst <$> groupByDay dayLabel l →
                 k ∈ fst <$> group_push (dayLabel (date x)) x
                               (groupByDay dayLabel l)) as Hkeep.
    { intros k Hk. rewrite group_push_keys. case_decide; [done|].
      apply elem_of_app. by left. }
    split; [|split].
    + rewrite group_push_keys. case_decide as Hin; [done|].
      apply NoDup_app. repeat split; [done| |apply NoDup_singleton].
      by intros k Hk ->%list_elem_of_singleton.
    + intros y [Hy| ->%list_elem_of_singleton]%elem_of_app; [by apply Hkeep, IHcov|].
      rewrite group_push_keys. case_decide; [done|].
      apply elem_of_app. right. left.
    + intros k items Hin.
      rewrite filter_app, filter_cons, filter_nil.
      destruct (group_push_elem _ _ _ _ _ IHnd Hin)
        as [[Hne Hg]|[[-> (old & Hold & ->)]|(-> & Hk & ->)]].
      * destruct (IHgr k items Hg) as [? ->].
        rewrite decide_False by done. by rewrite app_nil_r.
      * destruct (IHgr _ old Hold) as [_ ->]. rewrite decide_True by done.
        split; [|done]. by intros [_ ?]%app_eq_nil.
      * rewrite decide_True by done. split; [done|].
        rewrite (filter_nil_intro _ l); [done|].
        intros y Hy Hlab. apply Hk. rewrite <- Hlab. by apply IHcov.
Qed.
End GroupFacts.

Lemma groupByDay_keys dayLabel (l : list Activity) :
  NoDup (fst <$> groupByDay dayLabel l).
Proof.
  induction l as [|x l IH] using rev_ind; [apply NoDup_nil_2|].
  rewrite groupByDay_snoc, group_push_keys. case_decide as Hin; [done|].
  apply NoDup_app. repeat split; [done| |apply NoDup_singleton].
  by intros k Hk ->%list_elem_of_singleton.
Qed.

(** X23: the day sections of the report are the groups, each once: no
    label comes twice, and together the sections hold exactly the new
    activities, none lost and none repeated. *)
Theorem day_sections_partition dayLabel Date_parse ids (data0 : list Activity) :
  let sections := day_sections dayLabel Date_parse ids data0 in
  sections ≡ₚ groupByDay dayLabel (filter (is_new ids) data0)
  ∧ NoDup (fst <$> sections)
  ∧ concat (snd <$> sections) ≡ₚ filter (is_new ids) data0.
Proof.
  intros sections. subst sections.
  assert (day_sections dayLabel Date_parse ids data0
          ≡ₚ groupByDay dayLabel (filter (is_new ids) data0)) as Hperm
    by apply Array_sort_perm.
  split; [done|]. rewrite Hperm. split.
  - apply groupByDay_keys.
  - apply groupByDay_concat.
Qed.

Lemma filter_reported (l : list Activity) :
  length (filter reported l)
  = (length (filter (is_type Commit_type) l)
     + length (filter (is_type MergeRequest_type) l))%nat.
Proof.
  induction l as [|x l IH]; [done|].
  rewrite !filter_cons.
  destruct (decide (reported x)) as [[Hc|Hm]|Hn].
  - rewrite decide_True by done.
    rewrite decide_False by (unfold is_type; rewrite Hc; discriminate).
    simpl. lia.
  - rewrite decide_False by (unfold is_type; rewrite Hm; discriminate).
    rewrite decide_True by done. simpl. lia.
  - rewrite !decide_False; [done|..]; intros ?; apply Hn; [by right|by left].
Qed.

Lemma block_bullets {A} (l : list A) (render : A → jsstring) (header : jsstring) :
  ¬ is_bullet header →
  (∀ x, is_bullet (render x)) →
  length (filter is_bullet
            (if (length l =? 0)%nat then []
             else [header] ++ (render <$> l) ++ [[]]))
  = length l.
Proof.
  intros Hheader Hrender. destruct l as [|x l]; [done|].
  cbn [length Nat.eqb].
  rewrite !filter_app, !length_app.
  rewrite (filter_cons _ header), decide_False, filter_nil by done.
  rewrite (filter_cons _ []), decide_False, filter_nil by (by intros [=]).
  rewrite filter_all, length_fmap; [simpl; lia|].
  apply Forall_fmap, Forall_forall. intros y _. apply Hrender.
Qed.

Lemma render_commit_is_bullet c : is_bullet (render_commit c).
Proof. exact (take_app_length (lit "- [`") _). Qed.

Lemma render_mr_is_bullet mr : is_bullet (render_mr mr).
Proof. exact (take_app_length (lit "- [`") _). Qed.

Lemma render_day_bullets e :
  length (filter is_bullet (render_day e)) = length (filter reported e.2).
Proof.
  rewrite filter_reported. unfold render_day.
  rewrite 2!filter_app, 2!length_app.
  rewrite (block_bullets _ render_commit), (block_bullets _ render_mr);
    try apply render_commit_is_bullet; try apply render_mr_is_bullet;
    try (intros H; vm_compute in H; discriminate).
  rewrite filter_cons, decide_False, filter_nil;
    [done|intros H; vm_compute in H; discriminate].
Qed.

(** X24: the report gets one bullet line for every new commit and every
    new merge request, and for nothing else: an activity of another type
    is grouped under its day but not written. *)
Theorem report_lines_bullets dayLabel Date_parse ids (data0 : list Activity) :
  length (filter is_bullet (report_lines dayLabel Date_parse ids data0))
  = length (filter reported (filter (is_new ids) data0)).
Proof.
  assert (concat (snd <$> day_sections dayLabel Date_parse ids data0)
          ≡ₚ filter (is_new ids) data0) as Hall.
  { unfold day_sections. rewrite Array_sort_perm. apply groupByDay_concat. }
  rewrite <- Hall. clear Hall. unfold report_lines.
  induction (day_sections dayLabel Date_parse ids data0) as [|e l IH]; [done|].
  rewrite !fmap_cons. cbn [concat].
  by rewrite !filter_app, !length_app, IH, render_day_bullets.
Qed.

Lemma strip_title_title (text : jsstring) :
  strip_title (report_title ++ text) = text.
Proof.
  unfold strip_title.
  rewrite take_app_length, decide_True by done. by rewrite drop_app_length.
Qed.

(** X25: two runs that each have something new leave the title line once,
    then the lines of the second run, then those of the first, then what
    the file held before, less its own title line. *)
Theorem saveGroupedToMarkdown_twice
    dayLabel Date_parse ids1 ids2 (data1 data2 : list Activity) f :
  filter (is_new ids1) data1 ≠ [] →
  filter (is_new ids2) data2 ≠ [] →
  saveGroupedToMarkdown dayLabel Date_parse ids2 data2
    (saveGroupedToMarkdown dayLabel Date_parse ids1 data1 f)
  = Some (report_title
          ++ join newline (report_lines dayLabel Date_parse ids2 data2)
          ++ join newline (report_lines dayLabel Date_parse ids1 data1)
          ++ default [] (strip_title <$> f)).
Proof.
  intros H1 H2. unfold saveGroupedToMarkdown.
  destruct (filter (is_new ids1) data1) as [|x1 l1] eqn:E1; [done|].
  destruct (filter (is_new ids2) data2) as [|x2 l2] eqn:E2; [done|].
  cbn [length Nat.eqb]. cbv zeta.
  destruct f as [content|]; cbn [fmap option_fmap option_map default];
    by rewrite strip_title_title, ?app_nil_r.
Qed.

Lemma saveGroupedToMarkdown_twice_witness :
  saveGroupedToMarkdown Host.dayLabel Host.Date_parse no_existing [Sample.hotfix]
    (saveGroupedToMarkdown Host.dayLabel Host.Date_parse no_existing
       [Sample.release1] None)
  = Some (report_title
          ++ join newline (report_lines Host.dayLabel Host.Date_parse
                             no_existing [Sample.hotfix])
          ++ join newline (report_lines Host.dayLabel Host.Date_parse
                             no_existing [Sample.release1])
          ++ []).
Proof.
  apply (saveGroupedToMarkdown_twice Host.dayLabel Host.Date_parse
           no_existing no_existing [Sample.release1] [Sample.hotfix] None);
    vm_compute; discriminate.
Defined.

(** X26: the order of the day sections is that of [new Date] on their
    labels: when it reads every label, each section is of a day no
    earlier than the section after it; when it reads none, the sections
    stay in the order in which their days were first met in the batch. *)
Theorem day_sections_order dayLabel Date_parse ids (data0 : list Activity) :
  let groups := groupByDay dayLabel (filter (is_new ids) data0) in
  let sections := day_sections dayLabel Date_parse ids data0 in
  ((∀ e, e ∈ groups → is_Some (Date_parse (JStr e.1))) →
   ∀ i e1 e2, sections !! i = Some e1 → sections !! S i = Some e2 →
     ∃ t1 t2, Date_parse (JStr e1.1) = Some t1
              ∧ Date_parse (JStr e2.1) = Some t2 ∧ t2 ≤ t1)
  ∧ ((∀ e, e ∈ groups → Date_parse (JStr e.1) = None) → sections = groups).
Proof.
  intros groups sections. split.
  - intros Hread i e1 e2 H1 H2.
    pose proof (day_sections_parsed dayLabel Date_parse ids data0 Hread) as Hs.
    pose proof (StronglySorted_adjacent _ _ _ _ _ Hs H1 H2) as Hle.
    assert (∀ e, e ∈ sections → is_Some (Date_parse (JStr e.1))) as Hread'.
    { intros e He. apply Hread. subst sections groups.
      unfold day_sections in He. by rewrite Array_sort_perm in He. }
    destruct (Hread' e1 (list_elem_of_lookup_2 _ _ _ H1)) as [t1 Ht1].
    destruct (Hread' e2 (list_elem_of_lookup_2 _ _ _ H2)) as [t2 Ht2].
    exists t1, t2. repeat split; try done.
    unfold key_desc in Hle. by rewrite Ht1, Ht2 in Hle.
  - apply day_sections_unparsed.
Qed.

Lemma day_sections_order_witness :
  fst <$> day_sections Host.dayLabel Host.Date_parse no_existing
            [Sample.hotfix; Sample.retro]
  = [lit "Senin, 8 Juli 2024"; lit "Senin, 10 Juni 2024"]
  ∧ ∃ t1 t2,
      Host.Date_parse (JStr (lit "Senin, 8 Juli 2024")) = Some t1
      ∧ Host.Date_parse (JStr (lit "Senin, 10 Juni 2024")) = Some t2
      ∧ t2 ≤ t1.
Proof.
  split; [vm_compute; reflexivity|].
  refine (proj1 (day_sections_order Host.dayLabel Host.Date_parse no_existing
                   [Sample.hotfix; Sample.retro]) _ 0%nat
            (lit "Senin, 8 Juli 2024", [Sample.retro])
            (lit "Senin, 10 Juni 2024", [Sample.hotfix]) _ _).
  - intros e He. revert e He. apply Forall_forall. by_evaluation.
  - vm_compute. reflexivity.
  - vm_compute. reflexivity.
Defined.
